(** * pf2-translate-tools: the term matching and attachment engine

    A shallow embedding of [src/core/translation_engine.py]: the glossary
    loader ([load_translation_table]), the index builder
    ([_join_terms_for_regex], [build_search_indexes]), the matcher
    ([find_terms_in_text]) and the rewriter ([attach_translations_to_text]),
    together with the class-level state of [NLTKManager].

    Modelling conventions.
    - A Python [str] is a [list ascii].  The character tests the engine
      relies on ([str.lower], [str.strip], the [\b] anchor and
      [re.IGNORECASE]) are modelled on the ASCII range; a character outside
      it is carried as its UTF-8 bytes, which those tests leave alone.
    - A Python [dict] is an association list in insertion order: assigning
      to a present key replaces the value in place, assigning to an absent
      key appends.
    - An exception is a [Raise] result; the objects a method mutates are
      returned next to the result, so that the state left behind by a
      raising call is visible.  Progress reports and logging are left out.
    - [re.escape] and the treatment of empty matches by [finditer] are
      those of Python 3.7 and later; the pattern is modelled by the ordered
      list of the literals of its alternation.
    - What lies outside the engine (whether the WordNet packages can be
      had, what the lemmatizer answers, the order in which a set is
      iterated) is gathered in [Env]. *)

From Stdlib Require Import Ascii String List Bool Arith NArith Lia PeanoNat.
From Stdlib Require Import Permutation Sorted.
Import ListNotations.

Set Implicit Arguments.

(** ** Strings *)

Definition str := list ascii.

Definition lit (s : string) : str := list_ascii_of_string s.

Arguments lit s%_string.

Fixpoint str_eqb (a b : str) : bool :=
  match a, b with
  | [], [] => true
  | x :: a', y :: b' => Ascii.eqb x y && str_eqb a' b'
  | _, _ => false
  end.

(** [c.lower()] for one character: [A-Z] is moved to [a-z]. *)
Definition lower_char (c : ascii) : ascii :=
  let n := N_of_ascii c in
  if ((65 <=? n) && (n <=? 90))%N then ascii_of_N (n + 32) else c.

(** [s.lower()] *)
Definition lower (s : str) : str := map lower_char s.

(** The characters [str.strip()] removes: tab, line feed, vertical tab, form
    feed, carriage return, the four separators 0x1c-0x1f and the space. *)
Definition is_space (c : ascii) : bool :=
  let n := N_of_ascii c in
  (((9 <=? n) && (n <=? 13)) || ((28 <=? n) && (n <=? 32)))%N.

Fixpoint lstrip (s : str) : str :=
  match s with
  | c :: r => if is_space c then lstrip r else s
  | [] => []
  end.

Fixpoint rstrip (s : str) : str :=
  match s with
  | [] => []
  | c :: r =>
      match rstrip r with
      | [] => if is_space c then [] else [c]
      | kept => c :: kept
      end
  end.

(** [s.strip()] *)
Definition strip (s : str) : str := rstrip (lstrip s).

(** Truth value of a string: [bool(s)] is [len(s) > 0]. *)
Definition truthy (s : str) : bool :=
  match s with [] => false | _ :: _ => true end.

(** [c in s] for a single character [c]. *)
Definition contains_char (c : ascii) (s : str) : bool :=
  existsb (Ascii.eqb c) s.

(** [s[a:b]] for [0 <= a], [0 <= b]: out-of-range bounds are clamped. *)
Definition slice (s : str) (a b : nat) : str := firstn (b - a) (skipn a s).

(** [sep.join(parts)] *)
Fixpoint join (sep : str) (parts : list str) : str :=
  match parts with
  | [] => []
  | [p] => p
  | p :: ps => p ++ sep ++ join sep ps
  end.

(** ** Dictionaries *)

Definition dict := list (str * str).

(** [d.get(k)] *)
Fixpoint dict_get (d : dict) (k : str) : option str :=
  match d with
  | [] => None
  | (k', v) :: r => if str_eqb k k' then Some v else dict_get r k
  end.

(** [k in d] *)
Definition dict_mem (d : dict) (k : str) : bool :=
  match dict_get d k with Some _ => true | None => false end.

(** [d[k] = v]: a present key keeps its place, an absent one goes last. *)
Fixpoint dict_set (d : dict) (k v : str) : dict :=
  match d with
  | [] => [(k, v)]
  | (k', v') :: r =>
      if str_eqb k k' then (k', v) :: r else (k', v') :: dict_set r k v
  end.

(** [d.keys()], in insertion order. *)
Definition dict_keys (d : dict) : list str := map fst d.

(** ** Results and exceptions *)

Inductive exn : Type :=
| FileNotFoundError      (* the glossary path does not exist *)
| ValueError_unreadable  (* "无法读取 Excel 文件" *)
| ValueError_columns     (* "Excel 文件列数少于2" *)
| AttributeError         (* an attribute looked up on None *)
| KeyError               (* a subscript on a dict that lacks the key *)
| FormatError.           (* str.format rejected the template *)

Inductive result (A : Type) : Type :=
| Ok (a : A)
| Raise (e : exn).

Arguments Ok {A} a.
Arguments Raise {A} e.

(** ** The glossary source *)

(** A cell of the sheet: [None] is a missing value (NaN), [Some s] a value
    whose [str()] is [s]. *)
Definition cell := option str.

(** What [pd.read_excel(path, header=0)] gives: the header row and the data
    rows; [df.shape[1]] is the number of columns. *)
Record DataFrame : Type := {
  columns : list str;
  rows : list (list cell)
}.

Definition shape1 (df : DataFrame) : nat := length (columns df).

(** What is found at [excel_path]. *)
Inductive excel_file : Type :=
| Missing                      (* os.path.exists is False *)
| Unparsable                   (* pd.read_excel raises *)
| Sheet (df : DataFrame).

Definition cell_at (row : list cell) (j : nat) : cell :=
  match nth_error row j with Some c => c | None => None end.

(** [df[[source_col, target_col]].dropna()]: the first two columns of the
    rows in which neither is missing. *)
Fixpoint dropna2 (rs : list (list cell)) : list (str * str) :=
  match rs with
  | [] => []
  | row :: r =>
      match cell_at row 0, cell_at row 1 with
      | Some a, Some b => (a, b) :: dropna2 r
      | _, _ => dropna2 r
      end
  end.

(** The dict comprehension of [load_translation_table]: one pass over the
    cleaned rows, each kept row assigned into the dict being built. *)
Fixpoint comprehend (acc : dict) (rs : list (str * str)) : dict :=
  match rs with
  | [] => acc
  | (a, b) :: r =>
      if truthy (strip a) && truthy (strip b)
      then comprehend (dict_set acc (strip a) (strip b)) r
      else comprehend acc r
  end.

(** ** The lemmatizer and the class state of [NLTKManager] *)

Inductive pos : Type := pos_v | pos_n.

(** [WordNetLemmatizer().lemmatize(word, pos=...)], an external capability. *)
Definition Lemmatizer := pos -> str -> str.

(** What surrounds the engine.
    - [wordnet]: the lemmatizer the WordNet packages give once they are found
      locally or downloaded; [None] when neither succeeds, which is when
      [NLTKManager.initialize] returns [False].
    - [set_iter]: the order in which a [set] of strings is iterated; Python
      fixes nothing about it but that every element comes exactly once. *)
Record Env : Type := {
  wordnet : option Lemmatizer;
  set_iter : list str -> list str;
  set_iter_perm : forall l, Permutation.Permutation (set_iter l) l
}.

Module NLTKManager.

(** The two class attributes. *)
Record t : Type := {
  _initialized : bool;
  _lemmatizer : option Lemmatizer
}.

Definition fresh : t := {| _initialized := false; _lemmatizer := None |}.

(** [initialize]: returns at once when already initialised; otherwise looks
    for the packages, downloads them when absent, and on success creates
    the lemmatizer.  A failed download is logged and [False] is returned,
    the attributes being left as they were. *)
Definition initialize (env : Env) (cls : t) : bool * t :=
  if _initialized cls then (true, cls)
  else match wordnet env with
       | Some lem => (true, {| _initialized := true; _lemmatizer := Some lem |})
       | None => (false, cls)
       end.

(** [get_lemmatizer]: initialises when needed, ignores the outcome and
    returns the attribute. *)
Definition get_lemmatizer (env : Env) (cls : t) : option Lemmatizer * t :=
  let cls' := if _initialized cls then cls else snd (initialize env cls) in
  (_lemmatizer cls', cls').

(** [lemmatize_word]: verb first, then noun.  Calling [.lemmatize] on a
    [None] lemmatizer raises [AttributeError]. *)
Definition lemmatize_word (env : Env) (cls : t) (word : str)
  : result str * t :=
  let '(lemmatizer, cls') := get_lemmatizer env cls in
  match lemmatizer with
  | Some lem => (Ok (lem pos_n (lem pos_v word)), cls')
  | None => (Raise AttributeError, cls')
  end.

End NLTKManager.

(** ** The compiled pattern *)

(** [MAX_PATTERN_LEN = 20_000] *)
Definition MAX_PATTERN_LEN : N := 20000%N.

(** The characters [re.escape] puts a backslash before. *)
Definition special_chars : str :=
  lit "()[]{}?*+-|^$\.&~# " ++
  [ascii_of_nat 9; ascii_of_nat 10; ascii_of_nat 13; ascii_of_nat 11;
   ascii_of_nat 12].

Definition is_special (c : ascii) : bool := contains_char c special_chars.

Definition backslash : ascii := ascii_of_nat 92.

(** [re.escape(term)] *)
Fixpoint re_escape (term : str) : str :=
  match term with
  | [] => []
  | c :: r => if is_special c then backslash :: c :: re_escape r
              else c :: re_escape r
  end.

(** The literal an escaped term denotes inside a pattern: a backslash makes
    the next character stand for itself. *)
Fixpoint re_unescape (e : str) : str :=
  match e with
  | [] => []
  | c :: r =>
      if Ascii.eqb c backslash
      then match r with
           | [] => [c]
           | d :: r' => d :: re_unescape r'
           end
      else c :: re_unescape r
  end.

Definition len (s : str) : N := N.of_nat (length s).

(** The loop of [_join_terms_for_regex]: [chunks] holds the flushed buffers
    (latest first here), [buf] the terms of the current one (latest first),
    [cur_len] its budget so far. *)
Fixpoint chunk_loop (escaped_list : list str)
         (chunks : list (list str)) (buf : list str) (cur_len : N)
  : list (list str) * list str :=
  match escaped_list with
  | [] => (chunks, buf)
  | term :: r =>
      if (MAX_PATTERN_LEN <? cur_len + len term + 1)%N
      then chunk_loop r (rev buf :: chunks) [term] (len term + 1)%N
      else chunk_loop r chunks (term :: buf) (cur_len + len term + 1)%N
  end.

(** The buffers [_join_terms_for_regex] ends with, in order, before each is
    joined with a bar. *)
Definition chunk_terms (escaped_list : list str) : list (list str) :=
  let '(chunks, buf) := chunk_loop escaped_list [] [] 0%N in
  rev (match buf with [] => chunks | _ :: _ => rev buf :: chunks end).

(** [_join_terms_for_regex] *)
Definition _join_terms_for_regex (escaped_list : list str) : str :=
  match escaped_list with
  | [] => []
  | _ :: _ =>
      match map (join (lit "|")) (chunk_terms escaped_list) with
      | [one] => one
      | chunks => lit "(?:" ++ join (lit ")|(?:") chunks ++ lit ")"
      end
  end.

(** A pattern [\b( ... )\b] compiled with [re.IGNORECASE]: [pattern] is its
    text, [branches] the literals of its alternation in the order in which
    the engine tries them.  The bars of a buffer and the bars between the
    groups [(?:...)] are one ordered choice; an empty buffer is the group
    [(?:)], whose only branch is the empty literal. *)
Record regex : Type := {
  pattern : str;
  branches : list str
}.

Definition branches_of (chunks : list (list str)) : list str :=
  flat_map (fun buf => match buf with
                       | [] => [[]]
                       | _ :: _ => map re_unescape buf
                       end) chunks.

(** [re.compile(rf'\b({self._join_terms_for_regex(escaped_terms)})\b',
    re.IGNORECASE)] *)
Definition re_compile_terms (escaped_terms : list str) : regex :=
  {| pattern := backslash :: lit "b(" ++ _join_terms_for_regex escaped_terms
                ++ lit ")" ++ [backslash] ++ lit "b";
     branches := branches_of (chunk_terms escaped_terms) |}.

(** ** Matching *)

(** A word character of [\b], ASCII class: a letter, a digit or the
    underscore. *)
Definition is_word (c : ascii) : bool :=
  let n := N_of_ascii c in
  (((48 <=? n) && (n <=? 57)) || ((65 <=? n) && (n <=? 90))
   || (n =? 95) || ((97 <=? n) && (n <=? 122)))%N.

Definition is_word_opt (c : option ascii) : bool :=
  match c with Some c => is_word c | None => false end.

(** [\b] between the character before a position and the one at it; the
    two ends of the text count as non-word. *)
Definition boundary (before after : option ascii) : bool :=
  xorb (is_word_opt before) (is_word_opt after).

(** A literal against the text at the current position, ignoring case: the
    part of the text that is left when it matches. *)
Fixpoint match_literal (literal text : str) : option str :=
  match literal, text with
  | [], _ => Some text
  | _ :: _, [] => None
  | p :: literal', c :: text' =>
      if Ascii.eqb (lower_char p) (lower_char c)
      then match_literal literal' text' else None
  end.

(** The character before the end of a match of [literal] that started after
    [before]. *)
Definition last_char (before : option ascii) (matched : str) : option ascii :=
  match rev matched with c :: _ => Some c | [] => before end.

(** One branch followed by the closing [\b].  [must_advance] refuses the
    empty match. *)
Definition branch_matches (must_advance : bool) (before : option ascii)
           (text literal : str) : bool :=
  match match_literal literal text with
  | Some rest =>
      boundary (last_char before (firstn (length literal) text)) (hd_error rest)
      && negb (must_advance && negb (truthy literal))
  | None => false
  end.

(** The whole pattern at one position: the opening [\b], then the first
    branch that goes through.  The result is the length of the match. *)
Definition match_here (re : regex) (must_advance : bool)
           (before : option ascii) (text : str) : option nat :=
  if boundary before (hd_error text)
  then option_map (@length ascii)
         (find (branch_matches must_advance before text) (branches re))
  else None.

(** [re.finditer(text)] as the spans [(match.start(), match.end())], left to
    right.  [before] is the character before position [at], [text] what
    starts there, [skip] how many characters of a match found earlier are
    still to be passed.  After an empty match the engine searches again from
    the same position for a match that is not empty; after any other it
    goes on from the end of the match. *)
Fixpoint scan (re : regex) (before : option ascii) (text : str)
         (at_ skip : nat) : list (nat * nat) :=
  let next k :=
    match text with
    | [] => []
    | c :: text' => scan re (Some c) text' (S at_) k
    end in
  match skip with
  | S k => next k
  | 0 =>
      match match_here re false before text with
      | Some (S n) => (at_, at_ + S n) :: next n
      | Some 0 =>
          (at_, at_) ::
          match match_here re true before text with
          | Some (S n) => (at_, at_ + S n) :: next n
          | _ => next 0
          end
      | None => next 0
      end
  end.

Definition finditer (re : regex) (text : str) : list (nat * nat) :=
  scan re None text 0 0.

(** ** [str.format] with the keywords [translation] and [original] *)

(** Where the scan of a template stands: in literal text, after an opening
    brace, inside a replacement field whose name so far is [name] (last
    character first), or after a closing brace met in literal text. *)
Inductive format_state : Type :=
| InText
| AfterOpen
| InField (name : str)
| AfterClose.

(** The value of the field [name]: one of the two keyword arguments. *)
Definition field_value (name translation original : str) : option str :=
  if str_eqb name (lit "translation") then Some translation
  else if str_eqb name (lit "original") then Some original
  else None.

(** [template.format(translation=..., original=...)].  Doubled braces are
    literal braces; a field is one of the two keywords.  [None] stands for
    every template outside this fragment: those [str.format] rejects (a
    single brace, an unknown or positional field) and those that carry a
    conversion, a format specification or an attribute lookup, which are
    not modelled. *)
Fixpoint format_from (state : format_state)
         (template translation original : str) : option str :=
  match template with
  | [] => match state with InText => Some [] | _ => None end
  | c :: r =>
      match state with
      | InText =>
          if Ascii.eqb c "{"%char
          then format_from AfterOpen r translation original
          else if Ascii.eqb c "}"%char
               then format_from AfterClose r translation original
               else option_map (cons c)
                      (format_from InText r translation original)
      | AfterOpen =>
          if Ascii.eqb c "{"%char
          then option_map (cons "{"%char)
                 (format_from InText r translation original)
          else if Ascii.eqb c "}"%char then None
               else format_from (InField [c]) r translation original
      | InField name =>
          if Ascii.eqb c "}"%char
          then match field_value (rev name) translation original,
                     format_from InText r translation original with
               | Some value, Some out => Some (value ++ out)
               | _, _ => None
               end
          else if Ascii.eqb c "{"%char then None
               else format_from (InField (c :: name)) r translation original
      | AfterClose =>
          if Ascii.eqb c "}"%char
          then option_map (cons "}"%char)
                 (format_from InText r translation original)
          else None
      end
  end.

Definition str_format (template translation original : str) : option str :=
  format_from InText template translation original.

(** ** The engine *)

Record TranslationEngine : Type := {
  translation_dict : dict;
  _regex : option regex;
  _lower_to_original : dict;
  _lemma_map : dict;
  _indexes_built : bool
}.

(** [TranslationEngine()] *)
Definition new_engine : TranslationEngine :=
  {| translation_dict := []; _regex := None; _lower_to_original := [];
     _lemma_map := []; _indexes_built := false |}.

(** [load_translation_table]: the number of terms loaded, or the exception
    raised; progress reports are left out. *)
Definition load_translation_table (file : excel_file)
           (self : TranslationEngine) : result nat * TranslationEngine :=
  match file with
  | Missing => (Raise FileNotFoundError, self)
  | Unparsable => (Raise ValueError_unreadable, self)
  | Sheet df =>
      if shape1 df <? 2 then (Raise ValueError_columns, self)
      else
        let d := comprehend [] (dropna2 (rows df)) in
        (Ok (length d),
         {| translation_dict := d;
            _regex := _regex self;
            _lower_to_original := _lower_to_original self;
            _lemma_map := _lemma_map self;
            _indexes_built := false |})
  end.

(** [sorted(keys, key=len, reverse=True)]: by length, longest first, keys
    of one length in the order they came. *)
Fixpoint insert_by_len (k : str) (l : list str) : list str :=
  match l with
  | [] => [k]
  | y :: r => if length y <=? length k then k :: l else y :: insert_by_len k r
  end.

Definition sorted_by_len (keys : list str) : list str :=
  fold_right insert_by_len [] keys.

(** [{k.lower(): k for k in sorted_keys}] *)
Definition lower_index (sorted_keys : list str) : dict :=
  fold_left (fun d k => dict_set d (lower k) k) sorted_keys [].

(** The loop that fills [self._lemma_map], which starts empty; the map is
    returned as far as it was filled when [lemmatize_word] raises. *)
Fixpoint lemma_loop (env : Env) (lower_to_original : dict)
         (sorted_keys : list str) (cls : NLTKManager.t) (lemma_map : dict)
  : result unit * (NLTKManager.t * dict) :=
  match sorted_keys with
  | [] => (Ok tt, (cls, lemma_map))
  | key :: r =>
      let key_lower := lower key in
      if negb (contains_char " "%char key_lower) then
        match NLTKManager.lemmatize_word env cls key_lower with
        | (Ok lemma, cls') =>
            if negb (str_eqb lemma key_lower)
               && negb (dict_mem lower_to_original lemma)
            then lemma_loop env lower_to_original r cls'
                            (dict_set lemma_map lemma key)
            else lemma_loop env lower_to_original r cls' lemma_map
        | (Raise e, cls') => (Raise e, (cls', lemma_map))
        end
      else lemma_loop env lower_to_original r cls lemma_map
  end.

(** [set(a) | set(b)] for two lists without repetitions, as a list without
    repetitions. *)
Definition set_union (a b : list str) : list str :=
  a ++ filter (fun x => negb (existsb (str_eqb x) a)) b.

(** [build_search_indexes] *)
Definition build_search_indexes (env : Env)
           (cls : NLTKManager.t) (self : TranslationEngine)
  : result unit * (NLTKManager.t * TranslationEngine) :=
  match translation_dict self with
  | [] =>
      (Ok tt, (cls, {| translation_dict := translation_dict self;
                       _regex := None; _lower_to_original := [];
                       _lemma_map := []; _indexes_built := true |}))
  | _ :: _ =>
      let '(_, cls1) := NLTKManager.initialize env cls in
      let sorted_keys := sorted_by_len (dict_keys (translation_dict self)) in
      let lower_to_original := lower_index sorted_keys in
      match lemma_loop env lower_to_original sorted_keys cls1 [] with
      | (Raise e, (cls2, lemma_map)) =>
          (Raise e, (cls2, {| translation_dict := translation_dict self;
                              _regex := _regex self;
                              _lower_to_original := lower_to_original;
                              _lemma_map := lemma_map;
                              _indexes_built := _indexes_built self |}))
      | (Ok _, (cls2, lemma_map)) =>
          let all_forms_lower :=
            set_iter env (set_union (dict_keys lower_to_original)
                                    (dict_keys lemma_map)) in
          let escaped_terms := map re_escape (sorted_by_len all_forms_lower) in
          (Ok tt, (cls2, {| translation_dict := translation_dict self;
                            _regex := match escaped_terms with
                                      | [] => None
                                      | _ :: _ =>
                                          Some (re_compile_terms escaped_terms)
                                      end;
                            _lower_to_original := lower_to_original;
                            _lemma_map := lemma_map;
                            _indexes_built := true |}))
      end
  end.

(** [_ensure_indexes] *)
Definition _ensure_indexes (env : Env)
           (cls : NLTKManager.t) (self : TranslationEngine)
  : result unit * (NLTKManager.t * TranslationEngine) :=
  if _indexes_built self then (Ok tt, (cls, self))
  else build_search_indexes env cls self.

(** [x or y] on the results of two [dict.get]: [x] when it is a non-empty
    string, [y] otherwise. *)
Definition py_or (x y : option str) : option str :=
  match x with
  | Some (_ :: _) => x
  | _ => y
  end.

(** [self._lower_to_original.get(m) or self._lemma_map.get(m)] *)
Definition original_key_of (self : TranslationEngine) (m : str) : option str :=
  py_or (dict_get (_lower_to_original self) m) (dict_get (_lemma_map self) m).

(** The key a span of the text resolves to, when the test
    [if original_key] lets it through. *)
Definition resolve (self : TranslationEngine) (matched_text : str)
  : option str :=
  match original_key_of self (lower matched_text) with
  | Some (c :: k) => Some (c :: k)
  | _ => None
  end.

(** The loop of [find_terms_in_text] over the matches. *)
Fixpoint find_loop (self : TranslationEngine) (text : str)
         (matches : list (nat * nat)) (found_terms : dict) : result dict :=
  match matches with
  | [] => Ok found_terms
  | (s, e) :: r =>
      match resolve self (slice text s e) with
      | Some original_key =>
          if negb (dict_mem found_terms original_key) then
            match dict_get (translation_dict self) original_key with
            | Some translation =>
                find_loop self text r
                          (dict_set found_terms original_key translation)
            | None => Raise KeyError
            end
          else find_loop self text r found_terms
      | None => find_loop self text r found_terms
      end
  end.

(** [find_terms_in_text] *)
Definition find_terms_in_text (env : Env)
           (cls : NLTKManager.t) (self : TranslationEngine) (text : str)
  : result dict * (NLTKManager.t * TranslationEngine) :=
  match _ensure_indexes env cls self with
  | (Raise e, w) => (Raise e, w)
  | (Ok _, (cls', self')) =>
      match text, _regex self' with
      | _ :: _, Some re =>
          (find_loop self' text (finditer re text) [], (cls', self'))
      | _, _ => (Ok [], (cls', self'))
      end
  end.

(** The first loop of [attach_translations_to_text]: the list
    [replacements] of [(start, end, replacement)], in the order of the
    matches. *)
Fixpoint collect_replacements (self : TranslationEngine)
         (format_template text : str) (matches : list (nat * nat))
  : result (list (nat * nat * str)) :=
  match matches with
  | [] => Ok []
  | (s, e) :: r =>
      let matched_text := slice text s e in
      match resolve self matched_text with
      | Some original_key =>
          match dict_get (translation_dict self) original_key with
          | Some translation =>
              match str_format format_template translation matched_text with
              | Some replacement =>
                  match collect_replacements self format_template text r with
                  | Ok rest => Ok ((s, e, replacement) :: rest)
                  | Raise x => Raise x
                  end
              | None => Raise FormatError
              end
          | None => Raise KeyError
          end
      | None => collect_replacements self format_template text r
      end
  end.

(** The second loop: [result = result[:start] + replacement + result[end:]]
    for the replacements taken in the order given. *)
Definition splice (result : str) (r : nat * nat * str) : str :=
  let '(s, e, replacement) := r in
  firstn s result ++ replacement ++ skipn e result.

Definition apply_replacements (text : str) (order : list (nat * nat * str))
  : str :=
  fold_left splice order text.

(** [attach_translations_to_text] *)
Definition attach_translations_to_text (env : Env)
           (cls : NLTKManager.t) (self : TranslationEngine)
           (text format_template : str)
  : result str * (NLTKManager.t * TranslationEngine) :=
  match _ensure_indexes env cls self with
  | (Raise e, w) => (Raise e, w)
  | (Ok _, (cls', self')) =>
      match text, _regex self' with
      | _ :: _, Some re =>
          match collect_replacements self' format_template text
                                     (finditer re text) with
          | Ok replacements =>
              (Ok (apply_replacements text (rev replacements)), (cls', self'))
          | Raise x => (Raise x, (cls', self'))
          end
      | _, _ => (Ok text, (cls', self'))
      end
  end.

(** [format_template] when the caller passes none. *)
Definition default_template : str := lit "{translation} {original}".

(** ** Concrete surroundings used in the examples *)

(** A lemmatizer given by a table of inflected forms; other words are their
    own lemma. *)
Definition table_lemmatizer (table : list (str * str)) : Lemmatizer :=
  fun _ w => match dict_get table w with Some l => l | None => w end.

Definition env_with (lem : option Lemmatizer) : Env :=
  {| wordnet := lem; set_iter := fun l => l;
     set_iter_perm := fun l => Permutation_refl l |}.

Definition sheet_of (entries : list (str * str)) : excel_file :=
  Sheet {| columns := [lit "source"; lit "target"];
           rows := map (fun e => [Some (fst e); Some (snd e)]) entries |}.

Definition loaded (file : excel_file) : TranslationEngine :=
  snd (load_translation_table file new_engine).

(** ** Reference definitions the statements compare the code with *)


(** The last element of a list that passes a test. *)
Definition find_last (A : Type) (p : A -> bool) (l : list A) : option A :=
  find p (rev l).

(** [lemmatize_word] with a lemmatizer at hand. *)
Definition lemma_of (lem : Lemmatizer) (word : str) : str :=
  lem pos_n (lem pos_v word).

(** The test under which the loop of [build_search_indexes] writes [key]
    under [lemma]. *)
Definition registers (lem : Lemmatizer) (lower_to_original : dict)
           (lemma key : str) : bool :=
  negb (contains_char " "%char (lower key))
  && str_eqb lemma (lemma_of lem (lower key))
  && negb (str_eqb lemma (lower key))
  && negb (dict_mem lower_to_original lemma).

(** The lemmatizer [lemmatize_word] ends up calling. *)
Definition lemmatizer_in_use (env : Env) (cls : NLTKManager.t)
  : option Lemmatizer :=
  fst (NLTKManager.get_lemmatizer env cls).

(** What the loop of [build_search_indexes] leaves in [self._lemma_map]
    when the lemmatizer [lem] answers every call. *)
Fixpoint lemma_fill (lem : Lemmatizer) (lower_to_original : dict)
         (sorted_keys : list str) (lemma_map : dict) : dict :=
  match sorted_keys with
  | [] => lemma_map
  | key :: r =>
      if registers lem lower_to_original (lemma_of lem (lower key)) key
      then lemma_fill lem lower_to_original r
                      (dict_set lemma_map (lemma_of lem (lower key)) key)
      else lemma_fill lem lower_to_original r lemma_map
  end.

(** The keys of the dictionary in the order [build_search_indexes] goes
    through them. *)
Definition sorted_keys_of (self : TranslationEngine) : list str :=
  sorted_by_len (dict_keys (translation_dict self)).

(** The literal forms the pattern is built from, in pattern order. *)
Definition forms_of (env : Env) (lower_to_original lemma_map : dict)
  : list str :=
  sorted_by_len (set_iter env (set_union (dict_keys lower_to_original)
                                         (dict_keys lemma_map))).

(** The engine [build_search_indexes] leaves behind for a non-empty
    dictionary when the lemmatizer [lem] answers every call. *)
Definition built (env : Env) (lem : Lemmatizer) (self : TranslationEngine)
  : TranslationEngine :=
  let lower_to_original := lower_index (sorted_keys_of self) in
  let lemma_map := lemma_fill lem lower_to_original (sorted_keys_of self) [] in
  {| translation_dict := translation_dict self;
     _regex :=
       match map re_escape (forms_of env lower_to_original lemma_map) with
       | [] => None
       | e :: r => Some (re_compile_terms (e :: r))
       end;
     _lower_to_original := lower_to_original;
     _lemma_map := lemma_map;
     _indexes_built := true |}.

(** The spans of a text at which the test [if original_key] of the two
    scanning loops fails. *)
Definition unresolved_spans (self : TranslationEngine) (text : str)
  : list (nat * nat) :=
  match _regex self with
  | Some re =>
      filter (fun m => match resolve self (slice text (fst m) (snd m)) with
                       | Some _ => false
                       | None => true
                       end)
             (finditer re text)
  | None => []
  end.

(** The character before offset [k] of a text that comes after [before]. *)
Definition char_before (before : option ascii) (text : str) (k : nat)
  : option ascii :=
  match k with
  | 0 => before
  | S j => nth_error text j
  end.

(** Whether the pattern made of the single literal [form], between the two
    [\b] and ignoring case, matches the text at offset [s]. *)
Definition could_match (text : str) (s : nat) (form : str) : bool :=
  boundary (char_before None text s) (hd_error (skipn s text))
  && branch_matches false (char_before None text s) (skipn s text) form.

(** Spans in ascending order that do not overlap, all inside [lo, hi]. *)
Fixpoint chain (lo hi : nat) (spans : list (nat * nat)) : Prop :=
  match spans with
  | [] => lo <= hi
  | (s, e) :: r => lo <= s /\ s <= e /\ chain e hi r
  end.

(** What the spec says a rewrite is: the text from [cursor] on in which the
    spans of [replacements], taken left to right, are replaced and
    everything between them is kept. *)
Fixpoint rewrite_spec (text : str) (cursor : nat)
         (replacements : list (nat * nat * str)) : str :=
  match replacements with
  | [] => skipn cursor text
  | (s, e, replacement) :: r =>
      slice text cursor s ++ replacement ++ rewrite_spec text e r
  end.

(** The total length of the matched texts and the total length of what
    replaces them. *)
Definition matched_length (replacements : list (nat * nat * str)) : nat :=
  list_sum (map (fun r => snd (fst r) - fst (fst r)) replacements).

Definition expanded_length (replacements : list (nat * nat * str)) : nat :=
  list_sum (map (fun r => length (snd r)) replacements).

(** The keys the spans of [matches] resolve to, one per resolved span, in
    the order of the spans. *)
Definition resolved_keys (self : TranslationEngine) (text : str)
           (matches : list (nat * nat)) : list str :=
  flat_map (fun m => match resolve self (slice text (fst m) (snd m)) with
                     | Some k => [k]
                     | None => []
                     end) matches.

(** The spans of [matches] that resolve. *)
Definition resolved_spans (self : TranslationEngine) (text : str)
           (matches : list (nat * nat)) : list (nat * nat) :=
  filter (fun m => match resolve self (slice text (fst m) (snd m)) with
                   | Some _ => true
                   | None => false
                   end) matches.

(** A list without its repetitions, the first occurrence of each element
    kept in place; [seen] holds what counts as met already. *)
Fixpoint first_occurrences (seen keys : list str) : list str :=
  match keys with
  | [] => []
  | k :: r =>
      if existsb (str_eqb k) seen then first_occurrences seen r
      else k :: first_occurrences (seen ++ [k]) r
  end.

(** The engine [_ensure_indexes] leaves behind when the index was stale and
    the lemmatizer [lem] answers every call. *)
Definition indexed (env : Env) (lem : Lemmatizer) (self : TranslationEngine)
  : TranslationEngine :=
  match translation_dict self with
  | [] => {| translation_dict := translation_dict self;
             _regex := None; _lower_to_original := [];
             _lemma_map := []; _indexes_built := true |}
  | _ :: _ => built env lem self
  end.

(** The matches the two scanning loops go through: none for an empty text
    or an index without a pattern. *)
Definition matches_of (self : TranslationEngine) (text : str)
  : list (nat * nat) :=
  match text, _regex self with
  | _ :: _, Some re => finditer re text
  | _, _ => []
  end.

(** ** Further notions the statements use *)

(** The engine a successful load leaves behind. *)
Definition after_load (df : DataFrame) (self : TranslationEngine)
  : TranslationEngine :=
  {| translation_dict := comprehend [] (dropna2 (rows df));
     _regex := _regex self;
     _lower_to_original := _lower_to_original self;
     _lemma_map := _lemma_map self;
     _indexes_built := false |}.

(** Whether [_join_terms_for_regex] flushes the buffer while it is still
    empty: the first term alone exceeds the budget. *)
Definition flushes_empty (escaped_list : list str) : bool :=
  match escaped_list with
  | [] => false
  | term :: _ => (MAX_PATTERN_LEN <? len term + 1)%N
  end.

(** The non-empty match the pattern has at a position, be it after an
    empty one. *)
Definition match_nonempty (re : regex) (before : option ascii) (text : str)
  : option nat :=
  match match_here re false before text with
  | Some (S n) => Some (S n)
  | Some 0 =>
      match match_here re true before text with
      | Some (S n) => Some (S n)
      | _ => None
      end
  | None => None
  end.

(** The order of [sorted(..., key=len, reverse=True)]. *)
Definition longer_first (a b : str) : Prop := length b <= length a.

(** ** Glossaries of the examples *)

(** A sheet of two columns whose only row has a blank source field. *)
Definition blank_sheet : DataFrame :=
  {| columns := [lit "source"; lit "target"];
     rows := [[Some (lit "  "); Some (lit "x")]] |}.

(** The glossary with the single entry orc, and its index when the
    lemmatizer leaves orc alone. *)
Definition orc_sheet : excel_file := sheet_of [(lit "orc", lit "兽人")].


(** A glossary with a phrase and its first word, and its index when the
    lemmatizer leaves fire alone. *)
Definition fire_sheet : excel_file :=
  sheet_of [(lit "fire", lit "火"); (lit "fire ball", lit "火球术")].

Definition fire_index : TranslationEngine :=
  indexed (env_with None) (fun _ w => w) (loaded fire_sheet).

(** A glossary with two inflected forms of one verb, and a lemmatizer that
    knows them. *)
Definition run_sheet : excel_file :=
  sheet_of [(lit "running", lit "奔跑"); (lit "runs", lit "跑")].

Definition run_lemmatizer : Lemmatizer :=
  table_lemmatizer [(lit "running", lit "run"); (lit "runs", lit "run")].

(** A glossary whose only key has 20000 characters, the budget of a chunk
    of the pattern, and the index built for it with a lemmatizer that
    leaves every word alone. *)
Definition long_key : str := repeat "a"%char (N.to_nat MAX_PATTERN_LEN).

Definition long_sheet : excel_file := sheet_of [(long_key, lit "长")].

Definition long_index : TranslationEngine :=
  snd (snd (build_search_indexes (env_with (Some (fun _ w => w)))
                                 NLTKManager.fresh (loaded long_sheet))).


(** ** The rest of the engine and its callers *)

(** [get_term_count] *)
Definition get_term_count (self : TranslationEngine) : nat :=
  length (translation_dict self).











(** [FORMAT_TEMPLATES] of the attacher tab: each template with the text the
    drop-down shows for it. *)
Definition FORMAT_TEMPLATES : list (str * str) :=
  [(lit "{translation} {original}", lit "译名 原名 (如: 火球术 fire ball)");
   (lit "{original}({translation})", lit "原名(译名) (如: fire ball(火球术))");
   (lit "{original} ({translation})",
    lit "原名 (译名) (如: fire ball (火球术))");
   (lit "{translation}({original})", lit "译名(原名) (如: 火球术(fire ball))")].

(** [_get_selected_template], given what the drop-down holds. *)
Definition _get_selected_template (current_display : str) : str :=
  match find (fun entry => str_eqb (snd entry) current_display)
             FORMAT_TEMPLATES with
  | Some entry => fst entry
  | None => fst (hd ([], []) FORMAT_TEMPLATES)
  end.






(** * Properties *)

Unset Implicit Arguments.

(** ** Strings and dictionaries *)

Lemma str_eqb_eq (a b : str) : str_eqb a b = true <-> a = b.
Proof.
  revert b. induction a as [|x a IH]; intros [|y b]; simpl;
    try (split; congruence).
  rewrite andb_true_iff, Ascii.eqb_eq, IH. split.
  - intros [-> ->]. reflexivity.
  - intros [= -> ->]. auto.
Qed.

Lemma str_eqb_refl (a : str) : str_eqb a a = true.
Proof. now apply str_eqb_eq. Qed.

Lemma str_eqb_neq (a b : str) : str_eqb a b = false <-> a <> b.
Proof.
  rewrite <- str_eqb_eq. now destruct (str_eqb a b).
Qed.

Lemma str_eqb_sym (a b : str) : str_eqb a b = str_eqb b a.
Proof.
  destruct (str_eqb a b) eqn:E.
  - apply str_eqb_eq in E. subst. symmetry. apply str_eqb_refl.
  - apply str_eqb_neq in E. symmetry. apply str_eqb_neq. congruence.
Qed.

Lemma dict_get_set (d : dict) (k v x : str) :
  dict_get (dict_set d k v) x = if str_eqb x k then Some v else dict_get d x.
Proof.
  induction d as [|[k' v'] d IH]; simpl.
  - reflexivity.
  - destruct (str_eqb k k') eqn:E; simpl.
    + apply str_eqb_eq in E. subst k'.
      destruct (str_eqb x k); reflexivity.
    + destruct (str_eqb x k') eqn:E'.
      * apply str_eqb_eq in E'. subst k'.
        rewrite str_eqb_sym, E. reflexivity.
      * exact IH.
Qed.

Lemma dict_get_In (d : dict) (k v : str) :
  dict_get d k = Some v -> In (k, v) d.
Proof.
  induction d as [|[k' v'] d IH]; simpl; [discriminate|].
  destruct (str_eqb k k') eqn:E.
  - apply str_eqb_eq in E. intros [= ->]. subst. now left.
  - intros H. right. auto.
Qed.

Lemma dict_get_keys (d : dict) (k : str) :
  dict_get d k <> None <-> In k (dict_keys d).
Proof.
  induction d as [|[k' v'] d IH]; simpl.
  - split; [congruence | tauto].
  - destruct (str_eqb k k') eqn:E.
    + apply str_eqb_eq in E. subst. split; [now left | congruence].
    + apply str_eqb_neq in E. rewrite IH. split; [tauto|].
      intros [H|H]; [congruence | exact H].
Qed.


Lemma dict_keys_set (d : dict) (k v : str) :
  dict_keys (dict_set d k v)
  = if dict_mem d k then dict_keys d else dict_keys d ++ [k].
Proof.
  unfold dict_mem.
  induction d as [|[k' v'] d IH]; simpl; [reflexivity|].
  destruct (str_eqb k k') eqn:E; simpl; [reflexivity|].
  rewrite IH. now destruct (dict_get d k).
Qed.

Lemma dict_mem_keys (d : dict) (k : str) :
  dict_mem d k = true <-> In k (dict_keys d).
Proof.
  rewrite <- dict_get_keys. unfold dict_mem.
  destruct (dict_get d k); split; congruence.
Qed.

Lemma dict_set_NoDup (d : dict) (k v : str) :
  NoDup (dict_keys d) -> NoDup (dict_keys (dict_set d k v)).
Proof.
  intros ND. rewrite dict_keys_set.
  destruct (dict_mem d k) eqn:E; [exact ND|].
  apply NoDup_app; [exact ND | repeat constructor; simpl; tauto |].
  intros x Hx [<-|[]]. apply dict_mem_keys in Hx. congruence.
Qed.

(** ** Loading the glossary *)



Lemma dict_set_In (d : dict) (k v k0 v0 : str) :
  In (k0, v0) (dict_set d k v) -> In (k0, v0) d \/ (k0 = k /\ v0 = v).
Proof.
  induction d as [|[k' v'] d IH]; simpl.
  - intros [[= <- <-]|[]]. now right.
  - destruct (str_eqb k k') eqn:E; simpl.
    + apply str_eqb_eq in E. subst k'.
      intros [[= <- <-]|H]; [now right | left; now right].
    + intros [H|H]; [left; now left|].
      destruct (IH H) as [H'|H']; [left; now right | now right].
Qed.




(** A load that returns: the file was a sheet of at least two columns. *)
Lemma load_returns (file : excel_file) (self self' : TranslationEngine)
      (n : nat) :
  load_translation_table file self = (Ok n, self') ->
  exists df, file = Sheet df /\ 2 <= shape1 df
             /\ self' = after_load df self
             /\ n = length (translation_dict self').
Proof.
  destruct file as [| |df]; simpl; try discriminate.
  destruct (shape1 df <? 2) eqn:E; [discriminate|].
  apply Nat.ltb_ge in E. intros [= <- <-]. exists df. auto.
Qed.






(** ** The lemmatizer *)

Lemma lemmatize_word_available (env : Env) (cls : NLTKManager.t)
      (lem : Lemmatizer) :
  lemmatizer_in_use env cls = Some lem ->
  let cls1 := snd (NLTKManager.initialize env cls) in
  lemmatizer_in_use env cls1 = Some lem
  /\ forall w, NLTKManager.lemmatize_word env cls1 w
               = (Ok (lemma_of lem w), cls1).
Proof.
  unfold lemmatizer_in_use, NLTKManager.lemmatize_word,
    NLTKManager.get_lemmatizer, NLTKManager.initialize, lemma_of.
  destruct cls as [ini l]; simpl.
  destruct ini; simpl.
  - intros ->. split; [reflexivity|]. intros w. reflexivity.
  - destruct (wordnet env) as [l'|] eqn:W; simpl.
    + intros [= ->]. split; [reflexivity|]. intros w. reflexivity.
    + intros ->. rewrite ?W. simpl. split; [reflexivity|].
      intros w. reflexivity.
Qed.

Lemma lemmatize_word_unavailable (env : Env) (cls : NLTKManager.t) :
  lemmatizer_in_use env cls = None ->
  let cls1 := snd (NLTKManager.initialize env cls) in
  lemmatizer_in_use env cls1 = None
  /\ forall w, NLTKManager.lemmatize_word env cls1 w
               = (Raise AttributeError, cls1).
Proof.
  unfold lemmatizer_in_use, NLTKManager.lemmatize_word,
    NLTKManager.get_lemmatizer, NLTKManager.initialize.
  destruct cls as [ini l]; simpl.
  destruct ini; simpl.
  - intros ->. split; [reflexivity|]. intros w. reflexivity.
  - destruct (wordnet env) as [l'|] eqn:W; simpl.
    + discriminate.
    + intros ->. rewrite ?W. simpl. split; [reflexivity|].
      intros w. reflexivity.
Qed.

(** ** Building the index *)

Lemma find_append {A : Type} (p : A -> bool) (l1 l2 : list A) :
  find p (l1 ++ l2)
  = match find p l1 with
    | Some x => Some x
    | None => find p l2
    end.
Proof.
  induction l1 as [|a r IH]; simpl; [reflexivity|].
  now destruct (p a).
Qed.

Lemma find_last_cons {A : Type} (p : A -> bool) (x : A) (l : list A) :
  find_last p (x :: l)
  = match find_last p l with
    | Some y => Some y
    | None => if p x then Some x else None
    end.
Proof.
  unfold find_last. simpl.
  induction (rev l) as [|y r IH]; simpl; [reflexivity|].
  destruct (p y); [reflexivity | exact IH].
Qed.

Lemma find_last_some {A : Type} (p : A -> bool) (l : list A) (x : A) :
  find_last p l = Some x -> In x l /\ p x = true.
Proof.
  unfold find_last. intros H. apply find_some in H.
  rewrite <- in_rev in H. exact H.
Qed.

Lemma find_last_none {A : Type} (p : A -> bool) (l : list A) :
  find_last p l = None -> forall x, In x l -> p x = false.
Proof.
  unfold find_last. intros H x Hx.
  apply (find_none _ _ H). now rewrite <- in_rev.
Qed.

Lemma lower_index_get_from (keys : list str) :
  forall (d : dict) (x : str),
    dict_get (fold_left (fun d k => dict_set d (lower k) k) keys d) x
    = match find_last (fun k => str_eqb x (lower k)) keys with
      | Some k => Some k
      | None => dict_get d x
      end.
Proof.
  induction keys as [|k r IH]; intros d x; simpl; [reflexivity|].
  rewrite IH, find_last_cons.
  destruct (find_last _ r); [reflexivity|].
  rewrite dict_get_set. now destruct (str_eqb x (lower k)).
Qed.

(** The surface map binds a lowercase form to the last key, in the order
    the keys are gone through, that lowercases to it. *)
Lemma lower_index_get (keys : list str) (x : str) :
  dict_get (lower_index keys) x
  = find_last (fun k => str_eqb x (lower k)) keys.
Proof.
  unfold lower_index. rewrite lower_index_get_from.
  now destruct (find_last _ keys).
Qed.

Lemma lemma_fill_get_from (lem : Lemmatizer) (l2o : dict) (keys : list str) :
  forall (acc : dict) (x : str),
    dict_get (lemma_fill lem l2o keys acc) x
    = match find_last (registers lem l2o x) keys with
      | Some k => Some k
      | None => dict_get acc x
      end.
Proof.
  induction keys as [|k r IH]; intros acc x; simpl; [reflexivity|].
  rewrite find_last_cons.
  destruct (registers lem l2o (lemma_of lem (lower k)) k) eqn:R;
    rewrite IH; destruct (find_last _ r); try reflexivity.
  - rewrite dict_get_set.
    destruct (str_eqb x (lemma_of lem (lower k))) eqn:E.
    + apply str_eqb_eq in E. subst x. now rewrite R.
    + unfold registers. rewrite E.
      now rewrite andb_false_r.
  - destruct (registers lem l2o x k) eqn:R'; [|reflexivity].
    destruct (str_eqb x (lemma_of lem (lower k))) eqn:E.
    + apply str_eqb_eq in E. subst x. congruence.
    + unfold registers in R'. rewrite E in R'.
      rewrite andb_false_r in R'. discriminate.
Qed.

(** The lemma map binds a lemma to the last key, in the order the keys are
    gone through, that registers it. *)
Lemma lemma_fill_get (lem : Lemmatizer) (l2o : dict) (keys : list str)
      (x : str) :
  dict_get (lemma_fill lem l2o keys []) x
  = find_last (registers lem l2o x) keys.
Proof.
  rewrite lemma_fill_get_from. now destruct (find_last _ keys).
Qed.

Lemma lemma_loop_available (env : Env) (cls : NLTKManager.t)
      (lem : Lemmatizer) (l2o : dict) :
  (forall w, NLTKManager.lemmatize_word env cls w
             = (Ok (lemma_of lem w), cls)) ->
  forall keys acc,
    lemma_loop env l2o keys cls acc
    = (Ok tt, (cls, lemma_fill lem l2o keys acc)).
Proof.
  intros Hw. induction keys as [|k r IH]; intros acc; simpl; [reflexivity|].
  unfold registers. rewrite str_eqb_refl, andb_true_r.
  destruct (contains_char " " (lower k)); simpl; [apply IH|].
  rewrite Hw.
  destruct (negb (str_eqb (lemma_of lem (lower k)) (lower k))
            && negb (dict_mem l2o (lemma_of lem (lower k)))); apply IH.
Qed.

(** With a lemmatizer at hand, building the index of a non-empty dictionary
    returns and leaves the engine [built]. *)
Lemma build_available (env : Env) (cls : NLTKManager.t) (lem : Lemmatizer)
      (self : TranslationEngine) :
  lemmatizer_in_use env cls = Some lem ->
  translation_dict self <> [] ->
  build_search_indexes env cls self
  = (Ok tt, (snd (NLTKManager.initialize env cls), built env lem self)).
Proof.
  intros Hl Hd. unfold build_search_indexes.
  destruct (translation_dict self) as [|e d] eqn:D; [congruence|].
  destruct (lemmatize_word_available env cls lem Hl) as [_ Hw].
  destruct (NLTKManager.initialize env cls) as [b cls1]. simpl in Hw.
  rewrite (lemma_loop_available env cls1 lem _ Hw).
  unfold built, sorted_keys_of, forms_of. rewrite D. simpl snd.
  f_equal. f_equal. f_equal.
  now destruct (map re_escape _).
Qed.

Lemma insert_by_len_perm (k : str) (l : list str) :
  Permutation (insert_by_len k l) (k :: l).
Proof.
  induction l as [|y r IH]; simpl; [apply Permutation_refl|].
  destruct (length y <=? length k); [apply Permutation_refl|].
  apply perm_trans with (y :: k :: r); [now apply perm_skip | apply perm_swap].
Qed.

Lemma sorted_by_len_perm (l : list str) : Permutation (sorted_by_len l) l.
Proof.
  induction l as [|x r IH]; simpl; [apply perm_nil|].
  apply perm_trans with (x :: sorted_by_len r);
    [apply insert_by_len_perm | now apply perm_skip].
Qed.

Lemma sorted_by_len_In (l : list str) (x : str) :
  In x (sorted_by_len l) <-> In x l.
Proof.
  split; apply Permutation_in;
    [|apply Permutation_sym]; apply sorted_by_len_perm.
Qed.

(** Without a lemmatizer the loop raises at the first key that has no
    space. *)
Lemma lemma_loop_unavailable (env : Env) (cls : NLTKManager.t) (l2o : dict) :
  (forall w, NLTKManager.lemmatize_word env cls w
             = (Raise AttributeError, cls)) ->
  forall keys acc,
    lemma_loop env l2o keys cls acc
    = (if forallb (fun k => contains_char " " (lower k)) keys
       then Ok tt else Raise AttributeError, (cls, acc)).
Proof.
  intros Hw. induction keys as [|k r IH]; intros acc; simpl; [reflexivity|].
  destruct (contains_char " " (lower k)); simpl; [apply IH|].
  now rewrite Hw.
Qed.

(** Without a lemmatizer, building the index of a dictionary that has a key
    of one word raises, and the index is not marked built. *)
Lemma build_unavailable (env : Env) (cls : NLTKManager.t)
      (self : TranslationEngine) (k : str) :
  lemmatizer_in_use env cls = None ->
  In k (dict_keys (translation_dict self)) ->
  contains_char " " (lower k) = false ->
  exists cls' self',
    build_search_indexes env cls self = (Raise AttributeError, (cls', self'))
    /\ _indexes_built self' = _indexes_built self
    /\ translation_dict self' = translation_dict self
    /\ lemmatizer_in_use env cls' = None.
Proof.
  intros Hl Hk Hs. unfold build_search_indexes.
  destruct (translation_dict self) as [|e d] eqn:D; [destruct Hk|].
  destruct (lemmatize_word_unavailable env cls Hl) as [Hl' Hw].
  destruct (NLTKManager.initialize env cls) as [b cls1]. simpl in Hw, Hl'.
  rewrite (lemma_loop_unavailable env cls1 _ Hw).
  destruct (forallb _ _) eqn:F.
  - rewrite forallb_forall in F.
    rewrite (F k) in Hs; [discriminate|].
    now apply sorted_by_len_In.
  - eexists _, _. split; [reflexivity|]. simpl. auto.
Qed.

(** Without a lemmatizer, a dictionary whose keys all have a space is
    indexed on its surface forms alone. *)
Lemma build_unavailable_multiword (env : Env) (cls : NLTKManager.t)
      (self : TranslationEngine) :
  lemmatizer_in_use env cls = None ->
  translation_dict self <> [] ->
  (forall k, In k (dict_keys (translation_dict self)) ->
             contains_char " " (lower k) = true) ->
  exists cls' self',
    build_search_indexes env cls self = (Ok tt, (cls', self'))
    /\ _indexes_built self' = true
    /\ _lower_to_original self' = lower_index (sorted_keys_of self)
    /\ _lemma_map self' = [].
Proof.
  intros Hl Hd Hk. unfold build_search_indexes.
  destruct (translation_dict self) as [|e d] eqn:D; [congruence|].
  destruct (lemmatize_word_unavailable env cls Hl) as [Hl' Hw].
  destruct (NLTKManager.initialize env cls) as [b cls1]. simpl in Hw, Hl'.
  rewrite (lemma_loop_unavailable env cls1 _ Hw).
  destruct (forallb _ _) eqn:F.
  - eexists _, _. split; [reflexivity|]. simpl.
    unfold sorted_keys_of. rewrite D. auto.
  - exfalso. apply Bool.not_true_iff_false in F. apply F.
    apply forallb_forall. intros k Hin. apply Hk.
    now apply sorted_by_len_In.
Qed.

(** C1 fails on the code: with the WordNet packages out of reach,
    [NLTKManager.initialize] returns [False], and for the glossary with the
    single entry orc both [build_search_indexes] and a later
    [find_terms_in_text] raise AttributeError, the index staying unbuilt. *)
Theorem C1_unavailable_lemmatizer_aborts_the_build :
  fst (NLTKManager.initialize (env_with None) NLTKManager.fresh) = false
  /\ (exists w,
        build_search_indexes (env_with None) NLTKManager.fresh
                             (loaded orc_sheet)
        = (Raise AttributeError, w)
        /\ _indexes_built (snd w) = false
        /\ fst (find_terms_in_text (env_with None) (fst w) (snd w)
                                   (lit "an orc"))
           = Raise AttributeError).
Proof.
  split; [reflexivity|].
  eexists. split; [vm_compute; reflexivity|].
  split; reflexivity.
Qed.

Lemma find_last_exists {A : Type} (p : A -> bool) (l : list A) (x : A) :
  In x l -> p x = true -> find_last p l <> None.
Proof.
  intros Hin Hp H. rewrite (find_last_none p l H x Hin) in Hp. discriminate.
Qed.

(** [find_last] is the element after which no other passes the test. *)
Lemma find_last_split {A : Type} (p : A -> bool) (l : list A) (x : A) :
  find_last p l = Some x ->
  exists l1 l2, l = l1 ++ x :: l2 /\ p x = true
                /\ forall y, In y l2 -> p y = false.
Proof.
  induction l as [|a r IH]; [discriminate|].
  rewrite find_last_cons.
  destruct (find_last p r) as [y|] eqn:F.
  - intros [= ->]. destruct (IH eq_refl) as (l1 & l2 & -> & Hp & Hl).
    exists (a :: l1), l2. auto.
  - destruct (p a) eqn:Pa; [|discriminate]. intros [= ->].
    exists [], r. split; [reflexivity|]. split; [exact Pa|].
    apply (find_last_none p r F).
Qed.

(** C2, as stated, fails: the keys running and runs are processed in this
    order, both have the lemma run, which is no surface form, and the lemma
    map ends up binding run to runs, the key processed last. *)
Lemma C2_second_writer_replaces_the_first :
  sorted_keys_of (loaded run_sheet) = [lit "running"; lit "runs"]
  /\ lemma_of run_lemmatizer (lit "running") = lit "run"
  /\ lemma_of run_lemmatizer (lit "runs") = lit "run"
  /\ exists w,
      build_search_indexes (env_with (Some run_lemmatizer)) NLTKManager.fresh
                           (loaded run_sheet) = (Ok tt, w)
      /\ dict_get (_lower_to_original (snd w)) (lit "run") = None
      /\ dict_get (_lemma_map (snd w)) (lit "run") = Some (lit "runs")
      /\ dict_get (_lemma_map (snd w)) (lit "run") <> Some (lit "running").
Proof.
  repeat split; try reflexivity.
  eexists. split; [vm_compute; reflexivity|].
  repeat split; try reflexivity.
  vm_compute. discriminate.
Qed.

(** C2, amended: with a lemmatizer at hand, building the index of a
    non-empty dictionary returns, and the lemma map binds every lemma to the
    last key, in length-descending order, that registers it (a key of one
    word whose verb-then-noun lemma it is, the lemma differing from the
    lowercased key and being no key of the surface map); a later such key
    replaces an earlier one.  In particular every such key finds its lemma
    bound. *)
Theorem C2_lemma_map_last_writer_wins :
  forall (env : Env) (cls : NLTKManager.t) (lem : Lemmatizer)
         (self : TranslationEngine),
    lemmatizer_in_use env cls = Some lem ->
    translation_dict self <> [] ->
    exists cls' self',
      build_search_indexes env cls self = (Ok tt, (cls', self'))
      /\ _lower_to_original self' = lower_index (sorted_keys_of self)
      /\ (forall lemma,
             dict_get (_lemma_map self') lemma
             = find_last (registers lem (_lower_to_original self') lemma)
                         (sorted_keys_of self))
      /\ (forall key,
             In key (sorted_keys_of self) ->
             registers lem (_lower_to_original self')
                       (lemma_of lem (lower key)) key = true ->
             exists last,
               dict_get (_lemma_map self') (lemma_of lem (lower key))
               = Some last
               /\ exists before after,
                   sorted_keys_of self = before ++ last :: after
                   /\ registers lem (_lower_to_original self')
                                (lemma_of lem (lower key)) last = true
                   /\ forall k, In k after ->
                                registers lem (_lower_to_original self')
                                          (lemma_of lem (lower key)) k
                                = false).
Proof.
  intros env cls lem self Hl Hd.
  eexists _, _. split; [now apply build_available with (lem := lem)|].
  simpl. split; [reflexivity|]. split.
  - intros lemma. apply lemma_fill_get.
  - intros key Hin Hr. rewrite lemma_fill_get.
    destruct (find_last _ (sorted_keys_of self)) as [last|] eqn:F.
    + exists last. split; [reflexivity|]. now apply find_last_split.
    + exfalso. revert F. now apply find_last_exists with (x := key).
Qed.

Lemma C2_lemma_map_last_writer_wins_witness :
  exists cls' self',
    build_search_indexes (env_with (Some run_lemmatizer)) NLTKManager.fresh
                         (loaded run_sheet) = (Ok tt, (cls', self'))
    /\ dict_get (_lemma_map self') (lit "run")
       = find_last (registers run_lemmatizer (_lower_to_original self')
                              (lit "run"))
                   [lit "running"; lit "runs"].
Proof.
  destruct (C2_lemma_map_last_writer_wins
              (env_with (Some run_lemmatizer)) NLTKManager.fresh
              run_lemmatizer (loaded run_sheet))
    as (cls' & self' & Hb & _ & Hget & _).
  - reflexivity.
  - vm_compute. discriminate.
  - exists cls', self'. split; [exact Hb|]. apply Hget.
Defined.

(** ** Escaping and chunking *)

Lemma re_unescape_escape (s : str) : re_unescape (re_escape s) = s.
Proof.
  induction s as [|c r IH]; simpl; [reflexivity|].
  destruct (is_special c) eqn:S.
  - simpl. rewrite ?Ascii.eqb_refl. now rewrite IH.
  - simpl. destruct (Ascii.eqb c backslash) eqn:E.
    + apply Ascii.eqb_eq in E. subst c. discriminate S.
    + now rewrite IH.
Qed.

Lemma map_unescape_escape (l : list str) :
  map re_unescape (map re_escape l) = l.
Proof.
  rewrite map_map. rewrite <- (map_id l) at 2.
  apply map_ext. exact re_unescape_escape.
Qed.

(** Once the buffer holds a term, every buffer flushed later holds one. *)
Lemma chunk_loop_nonempty (l : list str) :
  forall chunks buf cur chunks' buf',
    buf <> [] ->
    chunk_loop l chunks buf cur = (chunks', buf') ->
    buf' <> []
    /\ exists new,
        chunks' = new ++ chunks
        /\ Forall (fun c => c <> []) new
        /\ concat (rev new) ++ rev buf' = rev buf ++ l.
Proof.
  induction l as [|term r IH]; intros chunks buf cur chunks' buf' Hb; simpl.
  - intros [= <- <-]. split; [exact Hb|]. exists []. simpl.
    now rewrite app_nil_r.
  - destruct (MAX_PATTERN_LEN <? cur + len term + 1)%N; intros H.
    + apply IH in H; [|discriminate].
      destruct H as (Hb' & new & -> & Hne & Hc). split; [exact Hb'|].
      exists (new ++ [rev buf]). split; [now rewrite <- app_assoc|]. split.
      * apply Forall_app. split; [exact Hne|]. constructor; [|constructor].
        intros E. apply Hb. apply (f_equal (@rev str)) in E.
        now rewrite rev_involutive in E.
      * rewrite rev_app_distr. simpl. rewrite ?app_nil_r.
        rewrite <- app_assoc, Hc. reflexivity.
    + apply IH in H; [|discriminate].
      destruct H as (Hb' & new & -> & Hne & Hc). split; [exact Hb'|].
      exists new. split; [reflexivity|]. split; [exact Hne|].
      rewrite Hc. simpl. now rewrite <- app_assoc.
Qed.

Lemma branches_of_nonempty (chunks : list (list str)) :
  Forall (fun c => c <> []) chunks ->
  branches_of chunks = map re_unescape (concat chunks).
Proof.
  induction 1 as [|c r Hc _ IH]; [reflexivity|].
  unfold branches_of in *. simpl. rewrite IH, map_app.
  destruct c; [congruence | reflexivity].
Qed.

(** The branches of the compiled pattern are the literals of the terms in
    the order given, after an empty branch when the first term alone
    exceeds the budget. *)
Lemma branches_of_chunk_terms (escaped_list : list str) :
  branches_of (chunk_terms escaped_list)
  = (if flushes_empty escaped_list then [[]] else [])
      ++ map re_unescape escaped_list.
Proof.
  assert (Hrev : forall buf : list str, buf <> [] -> rev buf <> []).
  { intros buf Hb E. apply Hb. apply (f_equal (@rev str)) in E.
    now rewrite rev_involutive in E. }
  destruct escaped_list as [|term r]; [reflexivity|].
  unfold chunk_terms, flushes_empty. simpl chunk_loop.
  destruct (MAX_PATTERN_LEN <? len term + 1)%N.
  - destruct (chunk_loop r [[]] [term] (len term + 1)%N) as [chunks' buf'] eqn:E.
    apply chunk_loop_nonempty in E; [|discriminate].
    destruct E as (Hb & new & -> & Hne & Hc).
    apply Hrev in Hb. remember (rev buf') as rb eqn:Erb.
    assert (Hshape : rev match buf' with
                         | [] => new ++ [[]]
                         | _ :: _ => rb :: new ++ [[]]
                         end = [] :: (rev new ++ [rb])).
    { destruct buf' as [|b bs]; [simpl in Erb; congruence|].
      change (rb :: new ++ [[]]) with ((rb :: new) ++ [[]]).
      rewrite rev_app_distr. reflexivity. }
    rewrite Hshape.
    change (branches_of ([] :: ?x)) with ([[]] ++ branches_of x).
    f_equal. rewrite branches_of_nonempty.
    + rewrite concat_app. simpl concat at 2. rewrite app_nil_r, Hc.
      reflexivity.
    + apply Forall_app. split; [now apply Forall_rev|].
      constructor; [exact Hb | constructor].
  - destruct (chunk_loop r [] [term] (len term + 1)%N) as [chunks' buf'] eqn:E.
    apply chunk_loop_nonempty in E; [|discriminate].
    destruct E as (Hb & new & -> & Hne & Hc).
    apply Hrev in Hb. remember (rev buf') as rb eqn:Erb.
    assert (Hshape : rev match buf' with
                         | [] => new ++ []
                         | _ :: _ => rb :: new ++ []
                         end = rev new ++ [rb]).
    { destruct buf' as [|b bs]; [simpl in Erb; congruence|].
      rewrite app_nil_r. reflexivity. }
    rewrite Hshape. rewrite branches_of_nonempty.
    + rewrite concat_app. simpl concat at 2. rewrite app_nil_r, Hc.
      reflexivity.
    + apply Forall_app. split; [now apply Forall_rev|].
      constructor; [exact Hb | constructor].
Qed.

(** ** Scanning *)

Lemma match_literal_spec (literal : str) :
  forall text rest,
    match_literal literal text = Some rest ->
    length literal <= length text
    /\ rest = skipn (length literal) text
    /\ lower (firstn (length literal) text) = lower literal.
Proof.
  induction literal as [|p l IH]; intros text rest; simpl.
  - intros [= <-]. split; [lia|]. split; reflexivity.
  - destruct text as [|c t]; [discriminate|].
    destruct (Ascii.eqb (lower_char p) (lower_char c)) eqn:E; [|discriminate].
    apply Ascii.eqb_eq in E. intros H.
    destruct (IH _ _ H) as (Hl & Hr & Hlow). simpl.
    split; [lia|]. split; [exact Hr|]. now rewrite Hlow, E.
Qed.

Lemma match_here_spec (re : regex) (adv : bool) (before : option ascii)
      (text : str) (n : nat) :
  match_here re adv before text = Some n ->
  boundary before (hd_error text) = true
  /\ exists b, find (branch_matches adv before text) (branches re) = Some b
               /\ length b = n.
Proof.
  unfold match_here. destruct (boundary before (hd_error text)); [|discriminate].
  destruct (find _ (branches re)) as [b|]; simpl; [|discriminate].
  intros [= <-]. split; [reflexivity|]. now exists b.
Qed.

Lemma branch_matches_spec (adv : bool) (before : option ascii)
      (text literal : str) :
  branch_matches adv before text literal = true ->
  length literal <= length text
  /\ lower (firstn (length literal) text) = lower literal
  /\ (adv = true -> literal <> []).
Proof.
  unfold branch_matches.
  destruct (match_literal literal text) as [rest|] eqn:M; [|discriminate].
  destruct (match_literal_spec _ _ _ M) as (Hl & _ & Hlow).
  intros H. apply andb_prop in H as [_ H].
  split; [exact Hl|]. split; [exact Hlow|].
  intros -> ->. discriminate.
Qed.

Lemma match_here_bound (re : regex) (adv : bool) (before : option ascii)
      (text : str) (n : nat) :
  match_here re adv before text = Some n -> n <= length text.
Proof.
  intros H. destruct (match_here_spec _ _ _ _ _ H) as (_ & b & F & <-).
  apply find_some in F as [_ F].
  now apply branch_matches_spec in F.
Qed.

Lemma match_here_advance (re : regex) (before : option ascii)
      (text : str) (n : nat) :
  match_here re true before text = Some n -> 0 < n.
Proof.
  intros H. destruct (match_here_spec _ _ _ _ _ H) as (_ & b & F & <-).
  apply find_some in F as [_ F].
  apply branch_matches_spec in F as (_ & _ & F).
  destruct b; [now exfalso; apply F | simpl; lia].
Qed.

Lemma chain_weaken (l : list (nat * nat)) :
  forall lo lo' hi, lo' <= lo -> chain lo hi l -> chain lo' hi l.
Proof.
  destruct l as [|[s e] r]; simpl; intros; [lia | intuition lia].
Qed.

Lemma chain_bounds (l : list (nat * nat)) :
  forall lo hi, chain lo hi l -> lo <= hi.
Proof.
  induction l as [|[s e] r IH]; simpl; intros lo hi H; [exact H|].
  destruct H as (H1 & H2 & H3). apply IH in H3. lia.
Qed.

(** The spans [scan] yields are in ascending order, do not overlap and lie
    in what is left of the text. *)
Lemma scan_chain (re : regex) (text : str) :
  forall before at_ skip,
    skip <= length text ->
    chain (at_ + skip) (at_ + length text) (scan re before text at_ skip).
Proof.
  induction text as [|c t IH]; intros before at_ skip Hs.
  - simpl in Hs. assert (skip = 0) by lia. subst skip. simpl.
    destruct (match_here re false before []) as [[|n]|] eqn:M; simpl.
    + destruct (match_here re true before []) as [[|n]|] eqn:M'; simpl;
        try lia.
      apply match_here_bound in M'. simpl in M'. lia.
    + apply match_here_bound in M. simpl in M. lia.
    + lia.
  - assert (Hnext : forall k, k <= length t ->
                chain (at_ + S k) (at_ + length (c :: t))
                      (scan re (Some c) t (S at_) k)).
    { intros k Hk. specialize (IH (Some c) (S at_) k Hk).
      simpl length. replace (at_ + S k) with (S at_ + k) by lia.
      replace (at_ + S (length t)) with (S at_ + length t) by lia.
      exact IH. }
    destruct skip as [|k].
    + simpl scan.
      destruct (match_here re false before (c :: t)) as [[|n]|] eqn:M.
      * simpl chain. split; [lia|]. split; [lia|].
        destruct (match_here re true before (c :: t)) as [[|n]|] eqn:M'.
        -- apply chain_weaken with (lo := at_ + 1); [lia|].
           apply Hnext. lia.
        -- apply match_here_bound in M'. simpl in M'.
           simpl chain. split; [lia|]. split; [lia|]. apply Hnext. lia.
        -- apply chain_weaken with (lo := at_ + 1); [lia|].
           apply Hnext. lia.
      * apply match_here_bound in M. simpl in M.
        simpl chain. split; [lia|]. split; [lia|]. apply Hnext. lia.
      * apply chain_weaken with (lo := at_ + 1); [lia|]. apply Hnext. lia.
    + simpl scan. apply Hnext. simpl in Hs. lia.
Qed.

Lemma finditer_chain (re : regex) (text : str) :
  chain 0 (length text) (finditer re text).
Proof.
  apply (scan_chain re text None 0 0). lia.
Qed.

(** Every span [scan] yields is a match of the pattern at its start. *)
Lemma scan_matches (re : regex) (text : str) :
  forall before at_ skip s e,
    In (s, e) (scan re before text at_ skip) ->
    at_ <= s
    /\ exists adv,
        match_here re adv (char_before before text (s - at_))
                   (skipn (s - at_) text) = Some (e - s).
Proof.
  induction text as [|c t IH]; intros before at_ skip s e.
  - destruct skip as [|k]; simpl; [|tauto].
    destruct (match_here re false before []) as [[|n]|] eqn:M; simpl.
    + destruct (match_here re true before []) as [[|n]|] eqn:M'; simpl.
      * intros [[= <- <-]|[]]. split; [lia|]. exists false.
        now rewrite !Nat.sub_diag.
      * apply match_here_bound in M'. simpl in M'. lia.
      * intros [[= <- <-]|[]]. split; [lia|]. exists false.
        now rewrite !Nat.sub_diag.
    + apply match_here_bound in M. simpl in M. lia.
    + tauto.
  - assert (Hnext : forall k,
                In (s, e) (scan re (Some c) t (S at_) k) ->
                at_ <= s
                /\ exists adv,
                    match_here re adv (char_before before (c :: t) (s - at_))
                               (skipn (s - at_) (c :: t)) = Some (e - s)).
    { intros k Hin. destruct (IH _ _ _ _ _ Hin) as (Hle & adv & Hm).
      split; [lia|]. exists adv.
      replace (s - at_) with (S (s - S at_)) by lia.
      destruct (s - S at_) as [|j] eqn:J; exact Hm. }
    assert (Hhere : forall adv n,
                match_here re adv before (c :: t) = Some n ->
                at_ <= at_
                /\ exists adv',
                    match_here re adv' (char_before before (c :: t) (at_ - at_))
                               (skipn (at_ - at_) (c :: t))
                    = Some (at_ + n - at_)).
    { intros adv n Hm. split; [lia|]. exists adv.
      rewrite Nat.sub_diag. replace (at_ + n - at_) with n by lia. exact Hm. }
    destruct skip as [|k]; simpl scan; [|apply Hnext].
    destruct (match_here re false before (c :: t)) as [[|n]|] eqn:M.
    + intros [[= <- <-]|Hin].
      * replace (at_ - at_) with 0 by lia. split; [lia|]. now exists false.
      * destruct (match_here re true before (c :: t)) as [[|n]|] eqn:M'.
        -- now apply Hnext in Hin.
        -- destruct Hin as [[= <- <-]|Hin]; [|now apply Hnext in Hin].
           now apply Hhere with (adv := true).
        -- now apply Hnext in Hin.
    + intros [[= <- <-]|Hin]; [|now apply Hnext in Hin].
      now apply Hhere with (adv := false).
    + apply Hnext.
Qed.

Lemma finditer_matches (re : regex) (text : str) (s e : nat) :
  In (s, e) (finditer re text) ->
  exists adv,
    match_here re adv (char_before None text s) (skipn s text) = Some (e - s).
Proof.
  intros H. apply scan_matches in H as (_ & adv & H).
  rewrite Nat.sub_0_r in H. now exists adv.
Qed.

(** [scan] misses no match: at an offset that no earlier span covers, the
    non-empty match of the pattern is yielded. *)
Lemma scan_complete (re : regex) (text : str) :
  forall before at_ skip s n,
    at_ + skip <= s -> s <= at_ + length text ->
    (forall s' e', In (s', e') (scan re before text at_ skip) ->
                   s' < s -> e' <= s) ->
    match_nonempty re (char_before before text (s - at_))
                   (skipn (s - at_) text) = Some n ->
    In (s, s + n) (scan re before text at_ skip).
Proof.
  induction text as [|c t IH]; intros before at_ skip s n Hlo Hhi Hfree.
  - simpl in Hhi. assert (s = at_) by lia. subst s.
    assert (skip = 0) by lia. subst skip.
    rewrite Nat.sub_diag. unfold match_nonempty. simpl.
    destruct (match_here re false before []) as [[|m]|] eqn:M;
      try discriminate.
    + destruct (match_here re true before []) as [[|m]|] eqn:M';
        try discriminate.
      apply match_here_bound in M'. simpl in M'. lia.
    + apply match_here_bound in M. simpl in M. lia.
  - assert (Hnext : forall k,
                S at_ + k <= s ->
                (forall s' e', In (s', e') (scan re (Some c) t (S at_) k) ->
                               s' < s -> e' <= s) ->
                match_nonempty re (char_before before (c :: t) (s - at_))
                               (skipn (s - at_) (c :: t)) = Some n ->
                In (s, s + n) (scan re (Some c) t (S at_) k)).
    { intros k Hk Hf Hm. apply IH; try assumption; [simpl in Hhi; lia|].
      replace (s - at_) with (S (s - S at_)) in Hm by lia.
      destruct (s - S at_) as [|j] eqn:J; exact Hm. }
    destruct skip as [|k].
    + simpl scan in *. unfold match_nonempty.
      destruct (Nat.eq_dec s at_) as [->|Hne].
      * rewrite Nat.sub_diag. simpl char_before. simpl skipn.
        destruct (match_here re false before (c :: t)) as [[|m]|] eqn:M;
          try discriminate.
        -- destruct (match_here re true before (c :: t)) as [[|m]|] eqn:M';
             try discriminate.
           intros [= <-]. right. now left.
        -- intros [= <-]. now left.
      * fold (match_nonempty re (char_before before (c :: t) (s - at_))
                             (skipn (s - at_) (c :: t))).
        intros Hm.
        destruct (match_here re false before (c :: t)) as [[|m]|] eqn:M.
        -- right.
           destruct (match_here re true before (c :: t)) as [[|m]|] eqn:M'.
           ++ apply Hnext; [lia | | exact Hm].
              intros s' e' Hin. apply Hfree. right. exact Hin.
           ++ right.
              assert (at_ + S m <= s)
                by (apply (Hfree at_); [right; now left | lia]).
              apply Hnext; [lia | | exact Hm].
              intros s' e' Hin. apply Hfree. right. right. exact Hin.
           ++ apply Hnext; [lia | | exact Hm].
              intros s' e' Hin. apply Hfree. right. exact Hin.
        -- right.
           assert (at_ + S m <= s) by (apply (Hfree at_); [now left | lia]).
           apply Hnext; [lia | | exact Hm].
           intros s' e' Hin. apply Hfree. right. exact Hin.
        -- apply Hnext; [lia | | exact Hm].
           intros s' e' Hin. apply Hfree. exact Hin.
    + simpl scan in *. intros Hm. apply Hnext; [lia | exact Hfree | exact Hm].
Qed.

Lemma finditer_complete (re : regex) (text : str) (s n : nat) :
  s <= length text ->
  (forall s' e', In (s', e') (finditer re text) -> s' < s -> e' <= s) ->
  match_nonempty re (char_before None text s) (skipn s text) = Some n ->
  In (s, s + n) (finditer re text).
Proof.
  intros Hs Hfree Hm. unfold finditer.
  apply scan_complete; try rewrite Nat.sub_0_r; auto; lia.
Qed.

(** ** Longest form first *)

Lemma insert_by_len_sorted (k : str) (l : list str) :
  StronglySorted longer_first l -> StronglySorted longer_first (insert_by_len k l).
Proof.
  induction 1 as [|y r Hs IH Hy]; simpl.
  - repeat constructor.
  - destruct (length y <=? length k) eqn:E.
    + apply Nat.leb_le in E. constructor; [now constructor|].
      constructor; [exact E|].
      eapply Forall_impl; [|exact Hy]. unfold longer_first. intros; lia.
    + apply Nat.leb_gt in E. constructor; [exact IH|].
      apply Forall_forall. intros z Hz.
      apply (Permutation_in _ (insert_by_len_perm k r)) in Hz.
      destruct Hz as [<-|Hz]; [unfold longer_first; lia|].
      now apply (proj1 (Forall_forall _ _) Hy).
Qed.

Lemma sorted_by_len_sorted (l : list str) :
  StronglySorted longer_first (sorted_by_len l).
Proof.
  induction l as [|x r IH]; simpl; [constructor|].
  now apply insert_by_len_sorted.
Qed.

(** In a list sorted longest first, possibly after some empty literals,
    the first element to pass a test is, when it is not empty, the longest
    of the list that passes it. *)
Lemma find_longest (p : str -> bool) (pre l : list str) (b : str) :
  Forall (fun x => x = []) pre ->
  StronglySorted longer_first l ->
  find p (pre ++ l) = Some b ->
  b <> [] ->
  In b l /\ forall f, In f l -> p f = true -> length f <= length b.
Proof.
  intros Hpre Hl. induction Hpre as [|x pre' -> _ IH]; simpl.
  - induction Hl as [|a r Hs IH Ha]; simpl; [discriminate|].
    destruct (p a) eqn:Pa.
    + intros [= <-] _. split; [now left|].
      intros f [<-|Hf] _; [lia|].
      now apply (proj1 (Forall_forall _ _) Ha).
    + intros F Hb. destruct (IH F Hb) as [Hin Hmax].
      split; [now right|]. intros f [<-|Hf] Pf; [congruence | auto].
  - destruct (p []); [intros [= <-]; congruence | exact IH].
Qed.

Lemma set_union_In (a b : list str) (x : str) :
  In x (set_union a b) <-> In x a \/ In x b.
Proof.
  unfold set_union. rewrite in_app_iff, filter_In. split.
  - tauto.
  - intros [H|H]; [now left|].
    destruct (existsb (str_eqb x) a) eqn:E.
    + left. apply existsb_exists in E as (y & Hy & E).
      apply str_eqb_eq in E. now subst.
    + right. split; [exact H | reflexivity].
Qed.

(** The literal forms of the pattern are the keys of the two maps. *)
Lemma forms_of_In (env : Env) (l2o lm : dict) (x : str) :
  In x (forms_of env l2o lm) <-> In x (dict_keys l2o) \/ In x (dict_keys lm).
Proof.
  unfold forms_of. rewrite sorted_by_len_In, <- set_union_In.
  split; apply Permutation_in;
    [|apply Permutation_sym]; apply set_iter_perm.
Qed.

Lemma lower_index_keys (keys : list str) (k : str) :
  In k keys -> In (lower k) (dict_keys (lower_index keys)).
Proof.
  intros H. apply dict_get_keys. rewrite lower_index_get.
  apply find_last_exists with (x := k); [exact H | apply str_eqb_refl].
Qed.

(** The pattern of a built index: its branches are the forms, longest
    first, after an empty branch when the first escaped form alone exceeds
    the budget of a chunk. *)
Lemma built_regex (env : Env) (lem : Lemmatizer) (self : TranslationEngine) :
  translation_dict self <> [] ->
  exists re,
    _regex (built env lem self) = Some re
    /\ branches re
       = (if flushes_empty
               (map re_escape
                    (forms_of env (_lower_to_original (built env lem self))
                              (_lemma_map (built env lem self))))
          then [[]] else [])
         ++ forms_of env (_lower_to_original (built env lem self))
                     (_lemma_map (built env lem self)).
Proof.
  intros Hd. unfold built. simpl.
  set (l2o := lower_index (sorted_keys_of self)).
  set (lm := lemma_fill lem l2o (sorted_keys_of self) []).
  destruct (map re_escape (forms_of env l2o lm)) as [|t r] eqn:E.
  - exfalso. destruct (translation_dict self) as [|[k v] d] eqn:D; [congruence|].
    assert (Hin : In (lower k) (forms_of env l2o lm)).
    { apply forms_of_In. left. apply lower_index_keys.
      unfold sorted_keys_of. apply sorted_by_len_In. rewrite D. now left. }
    apply (in_map re_escape) in Hin. rewrite E in Hin. destruct Hin.
  - eexists. split; [reflexivity|]. simpl branches.
    rewrite branches_of_chunk_terms, <- E, map_unescape_escape. reflexivity.
Qed.

Lemma branch_matches_any (adv : bool) (before : option ascii)
      (text literal : str) :
  literal <> [] ->
  branch_matches adv before text literal
  = branch_matches false before text literal.
Proof.
  intros H. unfold branch_matches. destruct literal; [congruence|].
  destruct (match_literal _ text); [|reflexivity]. simpl.
  now rewrite andb_false_r.
Qed.

Lemma branch_matches_weaken (adv : bool) (before : option ascii)
      (text literal : str) :
  branch_matches adv before text literal = true ->
  branch_matches false before text literal = true.
Proof.
  unfold branch_matches. destruct (match_literal literal text); [|auto].
  intros H. apply andb_prop in H as [H _]. now rewrite H.
Qed.

(** Longest-match precedence: a non-empty span the built pattern yields is
    a form of the index that matches at the start of the span, and no form
    that matches there is longer. *)
Lemma longest_form_is_matched (env : Env) (lem : Lemmatizer)
      (self : TranslationEngine) (re : regex) (text : str) (s e : nat) :
  _regex (built env lem self) = Some re ->
  translation_dict self <> [] ->
  In (s, e) (finditer re text) -> s < e ->
  let forms := forms_of env (_lower_to_original (built env lem self))
                        (_lemma_map (built env lem self)) in
  (exists form, In form forms /\ length form = e - s
                /\ could_match text s form = true)
  /\ forall form, In form forms -> could_match text s form = true ->
                  length form <= e - s.
Proof.
  intros Hre Hd Hin Hlt forms.
  destruct (built_regex env lem self Hd) as (re' & Hre' & Hbr).
  rewrite Hre in Hre'. injection Hre' as <-. fold forms in Hbr.
  destruct (finditer_matches _ _ _ _ Hin) as (adv & Hm).
  destruct (match_here_spec _ _ _ _ _ Hm) as (Hb & b & F & Hlen).
  rewrite Hbr in F.
  assert (Hne : b <> []) by (intros ->; simpl in Hlen; lia).
  pose proof (find_some _ _ F) as [_ Pb].
  apply find_longest in F; try exact Hne.
  - destruct F as [Hbin Hmax]. split.
    + exists b. split; [exact Hbin|]. split; [exact Hlen|].
      unfold could_match. rewrite Hb. simpl.
      now apply branch_matches_weaken with (adv := adv).
    + intros form Hf Hc. unfold could_match in Hc. rewrite Hb in Hc.
      simpl in Hc. destruct form as [|c f']; [simpl; lia|].
      rewrite <- Hlen. apply Hmax; [exact Hf|].
      rewrite branch_matches_any; [exact Hc | discriminate].
  - destruct (flushes_empty _); repeat constructor.
  - apply sorted_by_len_sorted.
Qed.

Lemma find_exists {A : Type} (p : A -> bool) (l : list A) (x : A) :
  In x l -> p x = true -> exists y, find p l = Some y.
Proof.
  intros Hin Hp. destruct (find p l) as [y|] eqn:F; [now exists y|].
  rewrite (find_none _ _ F x Hin) in Hp. discriminate.
Qed.

Lemma match_nonempty_exists (re : regex) (before : option ascii)
      (text form : str) :
  boundary before (hd_error text) = true ->
  In form (branches re) -> form <> [] ->
  branch_matches false before text form = true ->
  exists n, match_nonempty re before text = Some (S n).
Proof.
  intros Hb Hin Hne Hm. unfold match_nonempty, match_here. rewrite Hb.
  destruct (find_exists _ _ _ Hin Hm) as (y & ->). simpl.
  destruct (length y) as [|m]; [|now exists m].
  rewrite <- (branch_matches_any true) in Hm by exact Hne.
  destruct (find_exists _ _ _ Hin Hm) as (z & F). rewrite F. simpl.
  apply find_some in F as [_ F]. apply branch_matches_spec in F as (_ & _ & F).
  destruct z as [|c z']; [now exfalso; apply F | now exists (length z')].
Qed.

(** A non-empty form that matches at an offset no earlier span covers is
    not passed over: the pattern yields a span that starts there and is at
    least as long. *)
Lemma matching_form_is_found (env : Env) (lem : Lemmatizer)
      (self : TranslationEngine) (re : regex) (text : str) (s : nat)
      (form : str) :
  _regex (built env lem self) = Some re ->
  translation_dict self <> [] ->
  In form (forms_of env (_lower_to_original (built env lem self))
                    (_lemma_map (built env lem self))) ->
  form <> [] ->
  could_match text s form = true ->
  (forall s' e', In (s', e') (finditer re text) -> s' < s -> e' <= s) ->
  exists e, In (s, e) (finditer re text) /\ s < e /\ length form <= e - s.
Proof.
  intros Hre Hd Hf Hne Hc Hfree.
  destruct (built_regex env lem self Hd) as (re' & Hre' & Hbr).
  rewrite Hre in Hre'. injection Hre' as <-.
  pose proof Hc as Hc'. unfold could_match in Hc'.
  apply andb_prop in Hc' as [Hb Hm].
  destruct (match_nonempty_exists re _ _ form Hb) as (n & Hn); auto.
  { rewrite Hbr. apply in_or_app. now right. }
  assert (Hs : s <= length text).
  { apply branch_matches_spec in Hm as (Hm & _).
    rewrite length_skipn in Hm. destruct form; [congruence|]. simpl in Hm.
    lia. }
  pose proof (finditer_complete re text s (S n) Hs Hfree Hn) as Hin.
  exists (s + S n). split; [exact Hin|]. split; [lia|].
  apply (longest_form_is_matched env lem self re text s (s + S n));
    auto; lia.
Qed.

(** A key with a space, or a key that is its own lemma, writes nothing into
    the lemma map. *)
Lemma lemma_fill_none (lem : Lemmatizer) (l2o : dict) (keys : list str) :
  (forall k, In k keys ->
             contains_char " " (lower k) = true
             \/ lemma_of lem (lower k) = lower k) ->
  forall acc, lemma_fill lem l2o keys acc = acc.
Proof.
  induction keys as [|k r IH]; intros H acc; simpl; [reflexivity|].
  assert (R : registers lem l2o (lemma_of lem (lower k)) k = false).
  { unfold registers. destruct (H k (or_introl eq_refl)) as [E|E].
    - now rewrite E.
    - rewrite E, str_eqb_refl. simpl. now rewrite !andb_false_r. }
  rewrite R. apply IH. intros k' Hk'. apply H. now right.
Qed.

(** ** Resolving a match *)

Lemma ensure_available (env : Env) (cls : NLTKManager.t) (lem : Lemmatizer)
      (self : TranslationEngine) :
  lemmatizer_in_use env cls = Some lem ->
  _indexes_built self = false ->
  exists cls',
    _ensure_indexes env cls self = (Ok tt, (cls', indexed env lem self))
    /\ lemmatizer_in_use env cls' = Some lem.
Proof.
  intros Hl Hb. unfold _ensure_indexes, indexed. rewrite Hb.
  destruct (translation_dict self) as [|e d] eqn:D.
  - exists cls. split; [|exact Hl].
    unfold build_search_indexes. now rewrite D.
  - exists (snd (NLTKManager.initialize env cls)). split.
    + apply build_available; [exact Hl | congruence].
    + now apply lemmatize_word_available.
Qed.

(** Whenever [_ensure_indexes] returns on a stale index, be it without a
    lemmatizer, the engine is left as some lemmatizer would have indexed
    it. *)
Lemma ensure_returns (env : Env) (cls cls' : NLTKManager.t)
      (self self' : TranslationEngine) :
  _indexes_built self = false ->
  _ensure_indexes env cls self = (Ok tt, (cls', self')) ->
  exists lem, self' = indexed env lem self.
Proof.
  intros Hb H. destruct (lemmatizer_in_use env cls) as [lem|] eqn:Hl.
  - exists lem.
    destruct (ensure_available env cls lem self Hl Hb) as (c & E & _).
    rewrite E in H. now injection H.
  - exists (fun _ w => w). unfold _ensure_indexes in H. rewrite Hb in H.
    unfold indexed. unfold build_search_indexes in H.
    destruct (translation_dict self) as [|e d] eqn:D.
    + now injection H as _ <-.
    + destruct (lemmatize_word_unavailable env cls Hl) as [_ Hw].
      destruct (NLTKManager.initialize env cls) as [b cls1]. simpl in Hw.
      rewrite (lemma_loop_unavailable env cls1 _ Hw) in H.
      destruct (forallb _ _) eqn:F; [|discriminate].
      injection H as _ <-. unfold built, sorted_keys_of, forms_of.
      rewrite D. rewrite lemma_fill_none.
      * f_equal. now destruct (map re_escape _).
      * intros k Hk. left. rewrite forallb_forall in F. now apply F.
Qed.

Lemma indexed_dict (env : Env) (lem : Lemmatizer) (self : TranslationEngine) :
  translation_dict (indexed env lem self) = translation_dict self.
Proof.
  unfold indexed.
  destruct (translation_dict self) eqn:D; [reflexivity | exact D].
Qed.

Lemma indexed_built (env : Env) (lem : Lemmatizer) (self : TranslationEngine) :
  _indexes_built (indexed env lem self) = true.
Proof.
  unfold indexed. now destruct (translation_dict self).
Qed.

Lemma resolve_some (self : TranslationEngine) (m key : str) :
  resolve self m = Some key ->
  key <> []
  /\ (dict_get (_lower_to_original self) (lower m) = Some key
      \/ dict_get (_lemma_map self) (lower m) = Some key).
Proof.
  unfold resolve, original_key_of, py_or.
  destruct (dict_get (_lower_to_original self) (lower m)) as [[|c k]|];
    destruct (dict_get (_lemma_map self) (lower m)) as [[|c' k']|];
    try discriminate; intros [= <-]; split; auto; discriminate.
Qed.

(** A key the built index resolves a match to is a key of the dictionary,
    and the surface map binds its lowercase form to it. *)
Lemma resolve_indexed (env : Env) (lem : Lemmatizer)
      (self : TranslationEngine) (m key : str) :
  resolve (indexed env lem self) m = Some key ->
  In key (dict_keys (translation_dict self))
  /\ dict_get (_lower_to_original (indexed env lem self)) (lower key)
     = Some key.
Proof.
  intros H. apply resolve_some in H as [_ H]. revert H. unfold indexed.
  destruct (translation_dict self) as [|e d] eqn:D.
  - simpl. intros [H|H]; discriminate.
  - unfold built. simpl. rewrite lower_index_get, lemma_fill_get.
    set (keys := sorted_keys_of self).
    assert (Hcanon : forall k x,
               find_last (fun k' => str_eqb x (lower k')) keys = Some k ->
               find_last (fun k' => str_eqb (lower k) (lower k')) keys
               = Some k).
    { intros k x F. pose proof (find_last_some _ _ _ F) as [_ E].
      apply str_eqb_eq in E. now subst x. }
    assert (Hkeys : forall k, In k keys ->
                              In k (dict_keys (translation_dict self))).
    { intros k Hk. unfold keys, sorted_keys_of in Hk.
      now apply (proj1 (sorted_by_len_In _ _)) in Hk. }
    rewrite D in Hkeys.
    intros [F|F].
    + split; [apply Hkeys; now apply find_last_some in F|].
      rewrite lower_index_get. now apply Hcanon with (x := lower m).
    + split; [apply Hkeys; now apply find_last_some in F|].
      rewrite lower_index_get.
      destruct (find_last_split _ _ _ F) as (l1 & l2 & Hsplit & Hr & Hafter).
      fold keys. rewrite Hsplit. unfold find_last.
      rewrite rev_app_distr. simpl rev. rewrite <- app_assoc. simpl app.
      rewrite find_append.
      destruct (find _ (rev l2)) as [k'|] eqn:F'.
      * exfalso. apply find_some in F' as [Hin E].
        apply in_rev in Hin. apply str_eqb_eq in E.
        specialize (Hafter k' Hin). unfold registers in Hafter, Hr.
        rewrite <- E in Hafter. congruence.
      * simpl. now rewrite str_eqb_refl.
Qed.

Lemma dict_mem_existsb (d : dict) (k : str) :
  dict_mem d k = existsb (str_eqb k) (dict_keys d).
Proof.
  unfold dict_mem. induction d as [|[k' v'] d IH]; simpl; [reflexivity|].
  destruct (str_eqb k k'); [reflexivity | exact IH].
Qed.

(** ** The matcher *)

(** The loop of [find_terms_in_text] returns when every key the index
    resolves to is in the dictionary: it adds the keys not met before, in
    the order of their first occurrence, each with its translation. *)
Lemma find_loop_spec (self : TranslationEngine) (text : str) :
  (forall m key, resolve self m = Some key ->
                 In key (dict_keys (translation_dict self))) ->
  forall matches acc,
    exists found,
      find_loop self text matches acc = Ok found
      /\ dict_keys found
         = dict_keys acc
             ++ first_occurrences (dict_keys acc)
                                  (resolved_keys self text matches)
      /\ (NoDup (dict_keys acc) -> NoDup (dict_keys found))
      /\ (forall k v, In (k, v) found ->
                      In (k, v) acc
                      \/ dict_get (translation_dict self) k = Some v).
Proof.
  intros Hres. induction matches as [|[s e] r IH]; intros acc.
  - exists acc. simpl. rewrite app_nil_r. auto.
  - simpl find_loop. unfold resolved_keys. simpl flat_map.
    fold (resolved_keys self text r).
    destruct (resolve self (slice text s e)) as [key|] eqn:R.
    + simpl app. simpl first_occurrences.
      rewrite <- dict_mem_existsb.
      destruct (dict_mem acc key) eqn:M; simpl negb; cbv iota.
      * apply IH.
      * destruct (dict_get (translation_dict self) key) as [tr|] eqn:G.
        -- destruct (IH (dict_set acc key tr)) as (found & Hf & Hk & Hn & Hv).
           exists found. split; [exact Hf|].
           rewrite dict_keys_set, M in Hk. split; [|split].
           ++ rewrite Hk, <- app_assoc. reflexivity.
           ++ intros ND. apply Hn. now apply dict_set_NoDup.
           ++ intros k v Hin. destruct (Hv k v Hin) as [H|H]; [|now right].
              destruct (dict_set_In _ _ _ _ _ H) as [H'|[-> ->]];
                [now left | now right].
        -- exfalso. apply Hres in R. apply dict_get_keys in R. congruence.
    + simpl app. apply IH.
Qed.

(** When [_ensure_indexes] leaves the index built, [find_terms_in_text]
    returns and reports the keys the matches resolve to, each once, in the
    order of their first occurrence, with the translation the dictionary
    gives them. *)
Lemma find_terms_indexed (env : Env) (cls cls' : NLTKManager.t)
      (lem : Lemmatizer) (self : TranslationEngine) (text : str) :
  _ensure_indexes env cls self = (Ok tt, (cls', indexed env lem self)) ->
  exists found,
    find_terms_in_text env cls self text
    = (Ok found, (cls', indexed env lem self))
    /\ dict_keys found
       = first_occurrences []
           (resolved_keys (indexed env lem self) text
                          (matches_of (indexed env lem self) text))
    /\ NoDup (dict_keys found)
    /\ forall k v, In (k, v) found ->
                   dict_get (translation_dict self) k = Some v.
Proof.
  intros He. unfold find_terms_in_text, matches_of. rewrite He.
  set (self' := indexed env lem self).
  assert (Hres : forall m key, resolve self' m = Some key ->
                               In key (dict_keys (translation_dict self'))).
  { intros m key R. unfold self'. rewrite indexed_dict.
    now apply resolve_indexed in R. }
  destruct text as [|c t].
  - exists []. simpl. repeat split; [constructor | tauto].
  - destruct (_regex self') as [re|].
    + destruct (find_loop_spec self' (c :: t) Hres (finditer re (c :: t)) [])
        as (found & Hf & Hk & Hn & Hv).
      exists found. rewrite Hf. split; [reflexivity|].
      split; [exact Hk|]. split; [apply Hn; constructor|].
      intros k v Hin. destruct (Hv k v Hin) as [[]|H].
      unfold self' in H. now rewrite indexed_dict in H.
    + exists []. simpl. repeat split; [constructor | tauto].
Qed.

(** With a stale index and a lemmatizer at hand, [find_terms_in_text]
    returns. *)
Lemma find_terms_spec (env : Env) (cls : NLTKManager.t) (lem : Lemmatizer)
      (self : TranslationEngine) (text : str) :
  lemmatizer_in_use env cls = Some lem ->
  _indexes_built self = false ->
  exists found cls',
    find_terms_in_text env cls self text
    = (Ok found, (cls', indexed env lem self))
    /\ dict_keys found
       = first_occurrences []
           (resolved_keys (indexed env lem self) text
                          (matches_of (indexed env lem self) text))
    /\ NoDup (dict_keys found)
    /\ forall k v, In (k, v) found ->
                   dict_get (translation_dict self) k = Some v.
Proof.
  intros Hl Hb.
  destruct (ensure_available env cls lem self Hl Hb) as (cls' & He & _).
  destruct (find_terms_indexed env cls cls' lem self text He) as (found & H).
  now exists found, cls'.
Qed.

(** Whenever [find_terms_in_text] returns on a stale index, be it without a
    lemmatizer, every entry it reports is an entry of the dictionary. *)
Lemma find_terms_returns (env : Env) (cls : NLTKManager.t)
      (self : TranslationEngine) (text : str) (found : dict)
      (w : NLTKManager.t * TranslationEngine) :
  _indexes_built self = false ->
  find_terms_in_text env cls self text = (Ok found, w) ->
  NoDup (dict_keys found)
  /\ forall k v, In (k, v) found ->
                 dict_get (translation_dict self) k = Some v.
Proof.
  intros Hb H.
  destruct (_ensure_indexes env cls self) as [[[]|x] [cls' self']] eqn:He.
  - destruct (ensure_returns env cls cls' self self' Hb He) as (lem & ->).
    destruct (find_terms_indexed env cls cls' lem self text He)
      as (found' & Hf & _ & Hn & Hv).
    rewrite Hf in H. injection H as <- _. auto.
  - unfold find_terms_in_text in H. rewrite He in H. discriminate.
Qed.



(** C6: for a dictionary just loaded and any text, whenever
    [find_terms_in_text] returns a mapping, its keys are keys of the
    dictionary, each bound to the translation the dictionary gives it; and
    with a lemmatizer at hand it does return one. *)
Theorem C6_found_terms_are_dictionary_entries :
  forall (file : excel_file) (self0 self : TranslationEngine) (n : nat)
         (env : Env) (cls : NLTKManager.t) (text : str),
    load_translation_table file self0 = (Ok n, self) ->
    (forall found w,
        find_terms_in_text env cls self text = (Ok found, w) ->
        (forall k, In k (dict_keys found) ->
                   In k (dict_keys (translation_dict self)))
        /\ (forall k v, In (k, v) found ->
                        dict_get (translation_dict self) k = Some v)
        /\ (forall k v, dict_get found k = Some v ->
                        dict_get (translation_dict self) k = Some v))
    /\ (forall lem,
           lemmatizer_in_use env cls = Some lem ->
           exists found w,
             find_terms_in_text env cls self text = (Ok found, w)).
Proof.
  intros file self0 self n env cls text Hload.
  destruct (load_returns _ _ _ _ Hload) as (df & _ & _ & Hs & _).
  assert (Hb : _indexes_built self = false) by now subst self.
  split.
  - intros found w Hf.
    destruct (find_terms_returns env cls self text found w Hb Hf) as [_ Hv].
    split; [|split].
    + intros k Hk. apply in_map_iff in Hk as ([k' v] & <- & Hin).
      apply dict_get_keys. simpl. rewrite (Hv _ _ Hin). discriminate.
    + exact Hv.
    + intros k v G. apply Hv. now apply dict_get_In.
  - intros lem Hl.
    destruct (find_terms_spec env cls lem self text Hl Hb)
      as (found & cls' & Hf & _).
    now exists found, (cls', indexed env lem self).
Qed.

Lemma C6_found_terms_are_dictionary_entries_witness :
  exists found w,
    find_terms_in_text (env_with (Some (table_lemmatizer [])))
                       NLTKManager.fresh (loaded fire_sheet)
                       (lit "A Fire Ball, then fire")
    = (Ok found, w)
    /\ forall k v, In (k, v) found ->
                   dict_get (translation_dict (loaded fire_sheet)) k = Some v.
Proof.
  destruct (C6_found_terms_are_dictionary_entries
              fire_sheet new_engine (loaded fire_sheet) 2
              (env_with (Some (table_lemmatizer []))) NLTKManager.fresh
              (lit "A Fire Ball, then fire") eq_refl) as [Hv Hex].
  destruct (Hex (table_lemmatizer []) eq_refl) as (found & w & Hf).
  exists found, w. split; [exact Hf|]. now apply (Hv found w Hf).
Defined.

(** ** The rewriter *)

(** The first loop of the rewriter, when it returns: one replacement per
    resolved span, the template expanded with the text of the span and the
    translation of its key. *)
Lemma collect_replacements_ok (self : TranslationEngine)
      (template text : str) :
  forall matches replacements,
    collect_replacements self template text matches = Ok replacements ->
    map fst replacements = resolved_spans self text matches
    /\ forall s e r,
        In (s, e, r) replacements ->
        exists key tr,
          resolve self (slice text s e) = Some key
          /\ dict_get (translation_dict self) key = Some tr
          /\ str_format template tr (slice text s e) = Some r.
Proof.
  induction matches as [|[s e] rest IH]; intros reps.
  - simpl. intros [= <-]. split; [reflexivity|]. intros s e r [].
  - simpl collect_replacements. unfold resolved_spans. simpl filter.
    fold (resolved_spans self text rest).
    destruct (resolve self (slice text s e)) as [key|] eqn:R; [|apply IH].
    destruct (dict_get (translation_dict self) key) as [tr|] eqn:G;
      [|discriminate].
    destruct (str_format template tr (slice text s e)) as [r|] eqn:F;
      [|discriminate].
    destruct (collect_replacements self template text rest) as [reps'|x];
      [|discriminate].
    intros [= <-]. destruct (IH reps' eq_refl) as [Hm Hr].
    split; [simpl; now rewrite Hm|].
    intros s' e' r' [[= <- <- <-]|Hin]; [|now apply Hr].
    exists key, tr. auto.
Qed.

(** It returns when every resolved key is in the dictionary and the
    template is one [str.format] accepts. *)
Lemma collect_replacements_total (self : TranslationEngine)
      (template text : str) :
  (forall m key, resolve self m = Some key ->
                 In key (dict_keys (translation_dict self))) ->
  (forall tr o, str_format template tr o <> None) ->
  forall matches,
    exists replacements,
      collect_replacements self template text matches = Ok replacements.
Proof.
  intros Hres Hfmt. induction matches as [|[s e] rest IH].
  - now exists [].
  - destruct IH as (reps & Hc). simpl collect_replacements.
    destruct (resolve self (slice text s e)) as [key|] eqn:R;
      [|now exists reps].
    destruct (dict_get (translation_dict self) key) as [tr|] eqn:G.
    + destruct (str_format template tr (slice text s e)) as [r|] eqn:F.
      * rewrite Hc. now eexists.
      * exfalso. now apply (Hfmt tr (slice text s e)).
    + exfalso. apply Hres in R. apply dict_get_keys in R. congruence.
Qed.

Lemma chain_filter (p : nat * nat -> bool) (l : list (nat * nat)) :
  forall lo hi, chain lo hi l -> chain lo hi (filter p l).
Proof.
  induction l as [|[s e] r IH]; intros lo hi; simpl; [auto|].
  intros (H1 & H2 & H3). destruct (p (s, e)); simpl.
  - auto.
  - apply chain_weaken with (lo := e); [lia | auto].
Qed.

Lemma firstn_plus (l : str) :
  forall a b, firstn (a + b) l = firstn a l ++ firstn b (skipn a l).
Proof.
  induction l as [|c t IH]; intros [|a] b; simpl;
    try reflexivity; try now destruct b.
  now rewrite IH.
Qed.

(** Splicing from the last replacement to the first gives the text in which
    the spans are replaced and the rest is kept. *)
Lemma apply_rev_replacements (text : str) (replacements : list (nat * nat * str)) :
  forall cursor,
    chain cursor (length text) (map fst replacements) ->
    apply_replacements text (rev replacements)
    = firstn cursor text ++ rewrite_spec text cursor replacements.
Proof.
  unfold apply_replacements.
  induction replacements as [|[[s e] r] rest IH]; intros c; simpl.
  - intros _. now rewrite firstn_skipn.
  - intros (H1 & H2 & H3). pose proof (chain_bounds _ _ _ H3) as He.
    rewrite fold_left_app, (IH e H3). simpl.
    rewrite firstn_app, firstn_firstn, length_firstn.
    replace (Nat.min s e) with s by lia.
    replace (s - Nat.min e (length text)) with 0 by lia.
    simpl firstn at 2. rewrite app_nil_r.
    rewrite skipn_app, length_firstn.
    replace (e - Nat.min e (length text)) with 0 by lia.
    rewrite (skipn_all2 (firstn e text))
      by (rewrite length_firstn; lia).
    simpl. unfold slice.
    replace s with (c + (s - c)) at 1 by lia.
    rewrite firstn_plus, <- app_assoc. reflexivity.
Qed.

Lemma rewrite_spec_length (text : str) (replacements : list (nat * nat * str)) :
  forall cursor,
    chain cursor (length text) (map fst replacements) ->
    length (rewrite_spec text cursor replacements)
    + matched_length replacements + cursor
    = length text + expanded_length replacements.
Proof.
  unfold matched_length, expanded_length.
  induction replacements as [|[[s e] r] rest IH]; intros c; simpl.
  - intros H. rewrite length_skipn. lia.
  - intros (H1 & H2 & H3). pose proof (chain_bounds _ _ _ H3) as He.
    specialize (IH e H3). unfold slice.
    rewrite !length_app, length_firstn, length_skipn. lia.
Qed.

(** [attach_translations_to_text] as a function of the engine
    [_ensure_indexes] leaves behind. *)
Lemma attach_unfold (env : Env) (cls cls' : NLTKManager.t)
      (self self' : TranslationEngine) (text template : str) :
  _ensure_indexes env cls self = (Ok tt, (cls', self')) ->
  attach_translations_to_text env cls self text template
  = match collect_replacements self' template text (matches_of self' text)
    with
    | Ok replacements =>
        (Ok (apply_replacements text (rev replacements)), (cls', self'))
    | Raise x => (Raise x, (cls', self'))
    end.
Proof.
  intros He. unfold attach_translations_to_text, matches_of. rewrite He.
  destruct text as [|c t]; [reflexivity|].
  now destruct (_regex self').
Qed.

(** When [_ensure_indexes] leaves the index built and
    [attach_translations_to_text] returns, the result is the text in which
    every resolved match is replaced by the expansion of the template and
    the rest is kept. *)
Lemma attach_indexed (env : Env) (cls cls' : NLTKManager.t)
      (lem : Lemmatizer) (self : TranslationEngine) (text template out : str)
      (w : NLTKManager.t * TranslationEngine) :
  _ensure_indexes env cls self = (Ok tt, (cls', indexed env lem self)) ->
  attach_translations_to_text env cls self text template = (Ok out, w) ->
  let self' := indexed env lem self in
  w = (cls', self')
  /\ exists replacements,
      map fst replacements = resolved_spans self' text (matches_of self' text)
      /\ chain 0 (length text) (map fst replacements)
      /\ (forall s e r,
             In (s, e, r) replacements ->
             exists key tr,
               resolve self' (slice text s e) = Some key
               /\ dict_get (translation_dict self) key = Some tr
               /\ str_format template tr (slice text s e) = Some r)
      /\ out = apply_replacements text (rev replacements)
      /\ out = rewrite_spec text 0 replacements
      /\ length out + matched_length replacements
         = length text + expanded_length replacements.
Proof.
  intros He Ha self'. rewrite (attach_unfold _ _ _ _ _ _ _ He) in Ha.
  fold self' in Ha.
  destruct (collect_replacements self' template text (matches_of self' text))
    as [reps|x] eqn:Hc; [|discriminate].
  injection Ha as <- <-. split; [reflexivity|]. exists reps.
  destruct (collect_replacements_ok _ _ _ _ _ Hc) as [Hm Hr].
  assert (Hchain : chain 0 (length text) (map fst reps)).
  { rewrite Hm. unfold resolved_spans. apply chain_filter.
    unfold matches_of. destruct text as [|c t]; [simpl; lia|].
    destruct (_regex self'); [apply finditer_chain | simpl; lia]. }
  assert (Hout : apply_replacements text (rev reps) = rewrite_spec text 0 reps).
  { now rewrite (apply_rev_replacements text reps 0 Hchain). }
  split; [exact Hm|]. split; [exact Hchain|]. split.
  - intros s e r Hin. destruct (Hr s e r Hin) as (key & tr & R & G & F).
    exists key, tr. unfold self' in G. rewrite indexed_dict in G. auto.
  - split; [reflexivity|]. split; [exact Hout|].
    rewrite Hout. pose proof (rewrite_spec_length text reps 0 Hchain). lia.
Qed.

(** With a stale index, a lemmatizer at hand and a template [str.format]
    accepts, [attach_translations_to_text] returns. *)
Lemma attach_total (env : Env) (cls : NLTKManager.t) (lem : Lemmatizer)
      (self : TranslationEngine) (text template : str) :
  lemmatizer_in_use env cls = Some lem ->
  _indexes_built self = false ->
  (forall tr o, str_format template tr o <> None) ->
  exists out cls',
    _ensure_indexes env cls self = (Ok tt, (cls', indexed env lem self))
    /\ attach_translations_to_text env cls self text template
       = (Ok out, (cls', indexed env lem self)).
Proof.
  intros Hl Hb Hfmt.
  destruct (ensure_available env cls lem self Hl Hb) as (cls' & He & _).
  set (self' := indexed env lem self) in *.
  assert (Hres : forall m key, resolve self' m = Some key ->
                               In key (dict_keys (translation_dict self'))).
  { intros m key R. unfold self'. rewrite indexed_dict.
    now apply resolve_indexed in R. }
  destruct (collect_replacements_total self' template text Hres Hfmt
                                       (matches_of self' text)) as (reps & Hc).
  exists (apply_replacements text (rev reps)), cls'. split; [exact He|].
  rewrite (attach_unfold _ _ _ _ _ _ _ He). fold self'. now rewrite Hc.
Qed.

Lemma attach_spec (env : Env) (cls : NLTKManager.t) (lem : Lemmatizer)
      (self : TranslationEngine) (text template : str) :
  lemmatizer_in_use env cls = Some lem ->
  _indexes_built self = false ->
  (forall tr o, str_format template tr o <> None) ->
  let self' := indexed env lem self in
  exists out cls' replacements,
    attach_translations_to_text env cls self text template
    = (Ok out, (cls', self'))
    /\ map fst replacements
       = resolved_spans self' text (matches_of self' text)
    /\ chain 0 (length text) (map fst replacements)
    /\ (forall s e r,
           In (s, e, r) replacements ->
           exists key tr,
             resolve self' (slice text s e) = Some key
             /\ dict_get (translation_dict self) key = Some tr
             /\ str_format template tr (slice text s e) = Some r)
    /\ out = apply_replacements text (rev replacements)
    /\ out = rewrite_spec text 0 replacements
    /\ length out + matched_length replacements
       = length text + expanded_length replacements.
Proof.
  intros Hl Hb Hfmt self'.
  destruct (attach_total env cls lem self text template Hl Hb Hfmt)
    as (out & cls' & He & Ha).
  destruct (attach_indexed _ _ _ _ _ _ _ _ _ He Ha) as (_ & reps & H).
  exists out, cls', reps. split; [exact Ha | exact H].
Qed.



(** ** The two glossaries of the spec *)


Lemma set_iter_two (env : Env) (x y : str) :
  set_iter env [x; y] = [x; y] \/ set_iter env [x; y] = [y; x].
Proof.
  apply Permutation_length_2_inv. apply Permutation_sym, set_iter_perm.
Qed.


Lemma indexed_fire (env : Env) (lem : Lemmatizer) :
  lemma_of lem (lit "fire") = lit "fire" ->
  indexed env lem (loaded fire_sheet) = fire_index.
Proof.
  intros H. unfold fire_index, indexed. simpl translation_dict. cbv iota.
  unfold built.
  replace (sorted_keys_of (loaded fire_sheet))
    with [lit "fire ball"; lit "fire"] by reflexivity.
  replace (lower_index [lit "fire ball"; lit "fire"])
    with [(lit "fire ball", lit "fire ball"); (lit "fire", lit "fire")]
    by reflexivity.
  rewrite !lemma_fill_none.
  - unfold forms_of, set_union, dict_keys. cbn [map filter app fst].
    destruct (set_iter_two env (lit "fire ball") (lit "fire")) as [E|E],
             (set_iter_two (env_with None) (lit "fire ball") (lit "fire"))
               as [E'|E'];
      rewrite E, E'; reflexivity.
  - intros k [<-|[<-|[]]]; [now left | now right].
  - intros k [<-|[<-|[]]]; [now left | right; exact H].
Qed.

(** C4: longest-match precedence.  With a lemmatizer at hand, building the
    index of a non-empty dictionary returns a pattern such that every
    non-empty span it yields in a text is a form of the index (a key of the
    surface map or of the lemma map) matching at the start of the span, and
    no form matching at that offset is longer; and a non-empty form that
    matches at an offset no earlier span covers is not passed over, a span
    at least as long being yielded there.  For the glossary fire, fire
    ball and a lemmatizer that leaves fire alone, [find_terms_in_text] on
    a fire ball spell returns exactly the entry fire ball. *)
Theorem C4_longest_form_wins :
  (forall (env : Env) (cls : NLTKManager.t) (lem : Lemmatizer)
          (self : TranslationEngine),
      lemmatizer_in_use env cls = Some lem ->
      translation_dict self <> [] ->
      exists cls' self' re,
        build_search_indexes env cls self = (Ok tt, (cls', self'))
        /\ _regex self' = Some re
        /\ (forall text s e,
            In (s, e) (finditer re text) -> s < e ->
            (exists form,
                (In form (dict_keys (_lower_to_original self'))
                 \/ In form (dict_keys (_lemma_map self')))
                /\ length form = e - s
                /\ could_match text s form = true)
            /\ forall form,
                In form (dict_keys (_lower_to_original self'))
                \/ In form (dict_keys (_lemma_map self')) ->
                could_match text s form = true ->
                length form <= e - s)
        /\ forall text s form,
            In form (dict_keys (_lower_to_original self'))
            \/ In form (dict_keys (_lemma_map self')) ->
            form <> [] ->
            could_match text s form = true ->
            (forall s' e', In (s', e') (finditer re text) ->
                           s' < s -> e' <= s) ->
            exists e, In (s, e) (finditer re text)
                      /\ s < e /\ length form <= e - s)
  /\ (forall (env : Env) (cls : NLTKManager.t) (lem : Lemmatizer),
         lemmatizer_in_use env cls = Some lem ->
         lemma_of lem (lit "fire") = lit "fire" ->
         exists found,
           fst (find_terms_in_text env cls (loaded fire_sheet)
                                   (lit "a fire ball spell")) = Ok found
           /\ found = [(lit "fire ball", lit "火球术")]
           /\ dict_get found (lit "fire") = None).
Proof.
  split.
  - intros env cls lem self Hl Hd.
    destruct (built_regex env lem self Hd) as (re & Hre & _).
    exists (snd (NLTKManager.initialize env cls)), (built env lem self), re.
    split; [now apply build_available|]. split; [exact Hre|]. split.
    + intros text s e Hin Hlt.
      destruct (longest_form_is_matched env lem self re text s e
                                        Hre Hd Hin Hlt)
        as [(form & Hf & Hlen & Hc) Hmax].
      split.
      * exists form. split; [now apply forms_of_In in Hf | auto].
      * intros form' Hf'. apply Hmax. now apply forms_of_In.
    + intros text s form Hf Hne Hc Hfree.
      apply (matching_form_is_found env lem self re text s form); auto.
      now apply forms_of_In.
  - intros env cls lem Hl Hfire. unfold find_terms_in_text.
    destruct (ensure_available env cls lem (loaded fire_sheet) Hl eq_refl)
      as (cls' & -> & _).
    rewrite (indexed_fire env lem Hfire).
    eexists. split; [vm_compute; reflexivity|]. split; reflexivity.
Qed.

Lemma C4_longest_form_wins_witness :
  (exists cls' self' re,
      build_search_indexes (env_with (Some (table_lemmatizer [])))
                           NLTKManager.fresh (loaded fire_sheet)
      = (Ok tt, (cls', self'))
      /\ _regex self' = Some re)
  /\ exists found,
      fst (find_terms_in_text (env_with (Some (table_lemmatizer [])))
                              NLTKManager.fresh (loaded fire_sheet)
                              (lit "a fire ball spell")) = Ok found
      /\ found = [(lit "fire ball", lit "火球术")]
      /\ dict_get found (lit "fire") = None.
Proof.
  split.
  - destruct (proj1 C4_longest_form_wins
                    (env_with (Some (table_lemmatizer []))) NLTKManager.fresh
                    (table_lemmatizer []) (loaded fire_sheet))
      as (cls' & self' & re & Hb & Hre & _).
    + reflexivity.
    + vm_compute. discriminate.
    + exists cls', self', re. auto.
  - apply (proj2 C4_longest_form_wins
                 (env_with (Some (table_lemmatizer []))) NLTKManager.fresh
                 (table_lemmatizer [])).
    + reflexivity.
    + reflexivity.
Defined.



(** ** Spans that do not resolve *)

Lemma lower_char_idem (c : ascii) : lower_char (lower_char c) = lower_char c.
Proof.
  destruct c as [[] [] [] [] [] [] [] []]; reflexivity.
Qed.

Lemma lower_idem (s : str) : lower (lower s) = lower s.
Proof.
  unfold lower. rewrite map_map. apply map_ext. exact lower_char_idem.
Qed.

Lemma lower_index_key (keys : list str) (x : str) :
  In x (dict_keys (lower_index keys)) ->
  exists k, In k keys /\ x = lower k
            /\ dict_get (lower_index keys) x <> None.
Proof.
  intros H. apply dict_get_keys in H. pose proof H as H'.
  rewrite lower_index_get in H.
  destruct (find_last _ keys) as [k|] eqn:F; [|congruence].
  apply find_last_some in F as [Hin E]. apply str_eqb_eq in E.
  now exists k.
Qed.

Lemma lemma_fill_key (lem : Lemmatizer) (l2o : dict) (keys : list str)
      (x : str) :
  In x (dict_keys (lemma_fill lem l2o keys [])) ->
  exists k, In k keys /\ x = lemma_of lem (lower k)
            /\ dict_get (lemma_fill lem l2o keys []) x <> None.
Proof.
  intros H. apply dict_get_keys in H. pose proof H as H'.
  rewrite lemma_fill_get in H.
  destruct (find_last _ keys) as [k|] eqn:F; [|congruence].
  apply find_last_some in F as [Hin R]. unfold registers in R.
  apply andb_prop in R as [R _]. apply andb_prop in R as [R _].
  apply andb_prop in R as [_ R]. apply str_eqb_eq in R.
  now exists k.
Qed.

Lemma filter_none {A : Type} (p : A -> bool) (l : list A) :
  (forall x, In x l -> p x = false) -> filter p l = [].
Proof.
  induction l as [|a r IH]; intros H; simpl; [reflexivity|].
  rewrite (H a) by now left. apply IH. intros x Hx. apply H. now right.
Qed.

(** When the first escaped form fits the budget of a chunk, the keys of the
    dictionary are not empty and the lemmatizer gives lowercase lemmas,
    every span the pattern yields resolves. *)
Lemma every_span_resolves (env : Env) (lem : Lemmatizer)
      (self : TranslationEngine) (text : str) :
  (forall k, In k (dict_keys (translation_dict self)) -> k <> []) ->
  (forall p w, lower (lem p w) = lem p w) ->
  flushes_empty (map re_escape
                     (forms_of env (_lower_to_original (indexed env lem self))
                               (_lemma_map (indexed env lem self)))) = false ->
  unresolved_spans (indexed env lem self) text = [].
Proof.
  intros Hkeys Hlow Hflush. unfold unresolved_spans.
  destruct (_regex (indexed env lem self)) as [re|] eqn:Hre; [|reflexivity].
  assert (Hd : translation_dict self <> []).
  { intros D. unfold indexed in Hre. rewrite D in Hre. discriminate. }
  assert (Hi : indexed env lem self = built env lem self).
  { unfold indexed. destruct (translation_dict self); congruence. }
  destruct (built_regex env lem self Hd) as (re' & Hre' & Hbr).
  rewrite <- Hi in Hre', Hbr. rewrite Hre in Hre'. injection Hre' as <-.
  rewrite Hflush in Hbr. simpl in Hbr.
  set (self' := indexed env lem self) in *.
  apply filter_none. intros [s e] Hin. simpl.
  destruct (finditer_matches _ _ _ _ Hin) as (adv & Hm).
  destruct (match_here_spec _ _ _ _ _ Hm) as (_ & b & F & Hlen).
  apply find_some in F as [Hb Pb]. rewrite Hbr in Hb.
  apply branch_matches_spec in Pb as (_ & Pb & _).
  assert (Hslice : lower (slice text s e) = lower b).
  { unfold slice. now rewrite <- Hlen. }
  assert (Hl2o : _lower_to_original self' = lower_index (sorted_keys_of self))
    by now rewrite Hi.
  assert (Hlm : _lemma_map self'
                = lemma_fill lem (lower_index (sorted_keys_of self))
                             (sorted_keys_of self) [])
    by now rewrite Hi.
  assert (Hval : forall d x key,
             (d = _lower_to_original self' \/ d = _lemma_map self') ->
             dict_get d x = Some key -> key <> []).
  { intros d x key Hd' G.
    assert (Hs : In key (sorted_keys_of self)).
    { destruct Hd' as [-> | ->].
      - rewrite Hl2o, lower_index_get in G. now apply find_last_some in G.
      - rewrite Hlm, lemma_fill_get in G. now apply find_last_some in G. }
    apply (proj1 (sorted_by_len_In _ _)) in Hs. now apply Hkeys. }
  unfold resolve, original_key_of. rewrite Hslice.
  apply forms_of_In in Hb. rewrite Hl2o, Hlm in Hb.
  destruct Hb as [Hb|Hb].
  - apply lower_index_key in Hb as (k & _ & -> & G).
    rewrite lower_idem, Hl2o.
    destruct (dict_get (lower_index (sorted_keys_of self)) (lower k))
      as [key|] eqn:G'; [|congruence].
    assert (key <> []) by (apply (Hval _ (lower k) key (or_introl eq_refl));
                           now rewrite Hl2o).
    destruct key; [congruence | reflexivity].
  - apply lemma_fill_key in Hb as (k & _ & -> & G).
    unfold lemma_of at 1 2. rewrite Hlow. fold (lemma_of lem (lower k)).
    rewrite Hlm.
    destruct (dict_get (lemma_fill _ _ _ _) (lemma_of lem (lower k)))
      as [key|] eqn:G'; [|congruence].
    assert (key <> []) by (apply (Hval _ (lemma_of lem (lower k)) key
                                       (or_intror eq_refl));
                           now rewrite Hlm).
    unfold py_or.
    destruct (dict_get (_lower_to_original self') (lemma_of lem (lower k)))
      as [[|c key']|]; destruct key; try congruence; reflexivity.
Qed.

(** C8 fails on the code: for the glossary whose only key has 20000
    characters the build returns, but [_join_terms_for_regex] flushes its
    buffer while it is empty, the pattern gets an empty branch before the
    key, and in the text an x it yields the empty spans at the four word
    boundaries; none of them resolves, and the rewriter drops them and
    returns the text as it was. *)
Theorem C8_empty_chunk_yields_unresolved_spans :
  fst (build_search_indexes (env_with (Some (fun _ w => w)))
                            NLTKManager.fresh (loaded long_sheet)) = Ok tt
  /\ option_map (fun re => map len (branches re)) (_regex long_index)
     = Some [0%N; MAX_PATTERN_LEN]
  /\ matches_of long_index (lit "an x") = [(0, 0); (2, 2); (3, 3); (4, 4)]
  /\ resolve long_index (slice (lit "an x") 0 0) = None
  /\ unresolved_spans long_index (lit "an x")
     = [(0, 0); (2, 2); (3, 3); (4, 4)]
  /\ fst (attach_translations_to_text
            (env_with (Some (fun _ w => w))) NLTKManager.fresh
            (loaded long_sheet) (lit "an x") default_template)
     = Ok (lit "an x").
Proof.
  split; [vm_compute; reflexivity|].
  split; [vm_compute; reflexivity|].
  split; [vm_compute; reflexivity|].
  split; [vm_compute; reflexivity|].
  split; vm_compute; reflexivity.
Qed.

(** ** Keys that differ only in case *)









(** * Further properties of the engine *)

(** ** What a call leaves of the engine *)

Lemma build_dict (env : Env) (cls : NLTKManager.t) (self : TranslationEngine) :
  translation_dict (snd (snd (build_search_indexes env cls self)))
  = translation_dict self.
Proof.
  unfold build_search_indexes.
  destruct (translation_dict self) as [|e d] eqn:D; [reflexivity|].
  destruct (NLTKManager.initialize env cls) as [b cls1].
  destruct (lemma_loop _ _ _ _ _) as [[[]|x] [cls2 lm]]; reflexivity.
Qed.

Lemma build_ok_built (env : Env) (cls cls' : NLTKManager.t)
      (self self' : TranslationEngine) :
  build_search_indexes env cls self = (Ok tt, (cls', self')) ->
  _indexes_built self' = true.
Proof.
  unfold build_search_indexes.
  destruct (translation_dict self) as [|e d]; [now intros [= <- <-]|].
  destruct (NLTKManager.initialize env cls) as [b cls1].
  destruct (lemma_loop _ _ _ _ _) as [[[]|x] [cls2 lm]];
    [now intros [= <- <-] | discriminate].
Qed.

Lemma ensure_ok_built (env : Env) (cls cls' : NLTKManager.t)
      (self self' : TranslationEngine) :
  _ensure_indexes env cls self = (Ok tt, (cls', self')) ->
  _indexes_built self' = true
  /\ _ensure_indexes env cls' self' = (Ok tt, (cls', self')).
Proof.
  unfold _ensure_indexes at 1. destruct (_indexes_built self) eqn:B.
  - intros [= <- <-]. split; [exact B|]. unfold _ensure_indexes. now rewrite B.
  - intros H. apply build_ok_built in H. split; [exact H|].
    unfold _ensure_indexes. now rewrite H.
Qed.

Lemma ensure_dict (env : Env) (cls : NLTKManager.t) (self : TranslationEngine) :
  translation_dict (snd (snd (_ensure_indexes env cls self)))
  = translation_dict self.
Proof.
  unfold _ensure_indexes. destruct (_indexes_built self); [reflexivity|].
  apply build_dict.
Qed.

(** The outcome of building depends on the dictionary alone, not on the
    index the engine held before. *)
Lemma build_same_dict (env : Env) (cls : NLTKManager.t)
      (a b : TranslationEngine) :
  translation_dict a = translation_dict b ->
  fst (build_search_indexes env cls a) = fst (build_search_indexes env cls b)
  /\ fst (snd (build_search_indexes env cls a))
     = fst (snd (build_search_indexes env cls b))
  /\ (fst (build_search_indexes env cls a) = Ok tt ->
      snd (snd (build_search_indexes env cls a))
      = snd (snd (build_search_indexes env cls b))).
Proof.
  intros H. unfold build_search_indexes. rewrite H.
  destruct (translation_dict b) as [|e d]; [now repeat split|].
  destruct (NLTKManager.initialize env cls) as [f cls1].
  destruct (lemma_loop _ _ _ _ _) as [[[]|x] [cls2 lm]]; simpl;
    repeat split; try reflexivity.
  discriminate.
Qed.

(** [find_terms_in_text] as a function of what [_ensure_indexes] gives. *)
Lemma find_unfold (env : Env) (cls cls' : NLTKManager.t)
      (self self' : TranslationEngine) (text : str) :
  _ensure_indexes env cls self = (Ok tt, (cls', self')) ->
  find_terms_in_text env cls self text
  = (find_loop self' text (matches_of self' text) [], (cls', self')).
Proof.
  intros He. unfold find_terms_in_text, matches_of. rewrite He.
  destruct text as [|c t]; [reflexivity|].
  now destruct (_regex self').
Qed.

Lemma find_raise (env : Env) (cls : NLTKManager.t) (self : TranslationEngine)
      (text : str) (x : exn) (w : NLTKManager.t * TranslationEngine) :
  _ensure_indexes env cls self = (Raise x, w) ->
  find_terms_in_text env cls self text = (Raise x, w).
Proof.
  intros He. unfold find_terms_in_text. now rewrite He.
Qed.

Lemma attach_raise (env : Env) (cls : NLTKManager.t)
      (self : TranslationEngine) (text template : str) (x : exn)
      (w : NLTKManager.t * TranslationEngine) :
  _ensure_indexes env cls self = (Raise x, w) ->
  attach_translations_to_text env cls self text template = (Raise x, w).
Proof.
  intros He. unfold attach_translations_to_text. now rewrite He.
Qed.



(** Two stale engines with one dictionary answer alike. *)
Lemma stale_same_dict (env : Env) (cls : NLTKManager.t)
      (a b : TranslationEngine) (text template : str) :
  translation_dict a = translation_dict b ->
  _indexes_built a = false -> _indexes_built b = false ->
  fst (find_terms_in_text env cls a text)
  = fst (find_terms_in_text env cls b text)
  /\ fst (attach_translations_to_text env cls a text template)
     = fst (attach_translations_to_text env cls b text template).
Proof.
  intros Hd Ha Hb.
  destruct (build_same_dict env cls a b Hd) as (H1 & H2 & H3).
  assert (Ea : _ensure_indexes env cls a = build_search_indexes env cls a)
    by (unfold _ensure_indexes; now rewrite Ha).
  assert (Eb : _ensure_indexes env cls b = build_search_indexes env cls b)
    by (unfold _ensure_indexes; now rewrite Hb).
  destruct (build_search_indexes env cls a) as [[[]|x] [c1 s1]] eqn:Ba;
    destruct (build_search_indexes env cls b) as [[[]|y] [c2 s2]] eqn:Bb;
    simpl in H1, H2, H3; try discriminate.
  - specialize (H3 eq_refl). subst s2 c2.
    rewrite (find_unfold _ _ _ _ _ _ Ea), (find_unfold _ _ _ _ _ _ Eb).
    rewrite (attach_unfold _ _ _ _ _ _ _ Ea), (attach_unfold _ _ _ _ _ _ _ Eb).
    split; reflexivity.
  - injection H1 as ->.
    rewrite (find_raise _ _ _ _ _ _ Ea), (find_raise _ _ _ _ _ _ Eb).
    rewrite (attach_raise _ _ _ _ _ _ _ Ea), (attach_raise _ _ _ _ _ _ _ Eb).
    split; reflexivity.
Qed.

(** X2: a successful load makes the index stale: whatever dictionary and
    index the engine held before, what [find_terms_in_text] and
    [attach_translations_to_text] answer afterwards (a result or an
    exception) depends on the sheet just loaded alone, and so does the
    count returned. *)
Theorem X2_load_replaces_dictionary_and_index :
  forall (file : excel_file) (a b a' b' : TranslationEngine) (n m : nat),
    load_translation_table file a = (Ok n, a') ->
    load_translation_table file b = (Ok m, b') ->
    n = m
    /\ translation_dict a' = translation_dict b'
    /\ forall env cls text template,
        fst (find_terms_in_text env cls a' text)
        = fst (find_terms_in_text env cls b' text)
        /\ fst (attach_translations_to_text env cls a' text template)
           = fst (attach_translations_to_text env cls b' text template).
Proof.
  intros file a b a' b' n m Ha Hb.
  destruct (load_returns _ _ _ _ Ha) as (df & Hf & _ & Ha' & Hn).
  destruct (load_returns _ _ _ _ Hb) as (df' & Hf' & _ & Hb' & Hm).
  rewrite Hf in Hf'. injection Hf' as <-.
  assert (Hd : translation_dict a' = translation_dict b') by now subst a' b'.
  split; [congruence|]. split; [exact Hd|].
  intros env cls text template.
  apply stale_same_dict; [exact Hd | now subst a' | now subst b'].
Qed.

Lemma X2_load_replaces_dictionary_and_index_witness :
  fst (find_terms_in_text (env_with (Some (table_lemmatizer [])))
                          NLTKManager.fresh
                          (snd (load_translation_table orc_sheet fire_index))
                          (lit "fire orc"))
  = fst (find_terms_in_text (env_with (Some (table_lemmatizer [])))
                            NLTKManager.fresh (loaded orc_sheet)
                            (lit "fire orc")).
Proof.
  destruct (X2_load_replaces_dictionary_and_index
              orc_sheet fire_index new_engine
              (snd (load_translation_table orc_sheet fire_index))
              (loaded orc_sheet) 1 1 eq_refl eq_refl) as (_ & _ & H).
  apply (H (env_with (Some (table_lemmatizer []))) NLTKManager.fresh
           (lit "fire orc") default_template).
Defined.

(** X3: matching and rewriting do not wear the index: when
    [find_terms_in_text] or [attach_translations_to_text] has returned,
    the index is marked built, and the same call made again on the engine
    it left returns the same result and leaves the same engine and the
    same [NLTKManager]. *)
Theorem X3_repeated_calls_answer_alike :
  forall (env : Env) (cls : NLTKManager.t) (self : TranslationEngine)
         (text template : str),
    (forall found w,
        find_terms_in_text env cls self text = (Ok found, w) ->
        _indexes_built (snd w) = true
        /\ find_terms_in_text env (fst w) (snd w) text = (Ok found, w))
    /\ (forall out w,
           attach_translations_to_text env cls self text template
           = (Ok out, w) ->
           _indexes_built (snd w) = true
           /\ attach_translations_to_text env (fst w) (snd w) text template
              = (Ok out, w)).
Proof.
  intros env cls self text template. split.
  - intros found w H.
    destruct (_ensure_indexes env cls self) as [[[]|x] [cls' self']] eqn:He.
    + destruct (ensure_ok_built _ _ _ _ _ He) as [Hb He'].
      rewrite (find_unfold _ _ _ _ _ _ He) in H.
      assert (Hw : w = (cls', self')) by now injection H.
      subst w. simpl. split; [exact Hb|].
      now rewrite (find_unfold _ _ _ _ _ _ He').
    + rewrite (find_raise _ _ _ _ _ _ He) in H. discriminate.
  - intros out w H.
    destruct (_ensure_indexes env cls self) as [[[]|x] [cls' self']] eqn:He.
    + destruct (ensure_ok_built _ _ _ _ _ He) as [Hb He'].
      rewrite (attach_unfold _ _ _ _ _ _ _ He) in H.
      assert (Hw : w = (cls', self')).
      { destruct (collect_replacements _ _ _ _); now injection H. }
      subst w. simpl. split; [exact Hb|].
      now rewrite (attach_unfold _ _ _ _ _ _ _ He').
    + rewrite (attach_raise _ _ _ _ _ _ _ He) in H. discriminate.
Qed.

Lemma X3_repeated_calls_answer_alike_witness :
  exists found w,
    find_terms_in_text (env_with (Some (table_lemmatizer [])))
                       NLTKManager.fresh (loaded orc_sheet) (lit "an orc")
    = (Ok found, w)
    /\ find_terms_in_text (env_with (Some (table_lemmatizer [])))
                          (fst w) (snd w) (lit "an orc") = (Ok found, w).
Proof.
  eexists _, _. split; [vm_compute; reflexivity|].
  apply (proj1 (X3_repeated_calls_answer_alike
                  (env_with (Some (table_lemmatizer []))) NLTKManager.fresh
                  (loaded orc_sheet) (lit "an orc") default_template)).
  vm_compute. reflexivity.
Defined.

(** X4: the index is built on demand: on a stale engine, calling
    [build_search_indexes] and then matching or rewriting gives what
    matching or rewriting alone gives, results and engine alike; and when
    the build raises, so does the call made alone, with the same
    exception. *)
Theorem X4_explicit_build_is_optional :
  forall (env : Env) (cls : NLTKManager.t) (self : TranslationEngine)
         (text template : str),
    _indexes_built self = false ->
    (forall cls' self',
        build_search_indexes env cls self = (Ok tt, (cls', self')) ->
        find_terms_in_text env cls' self' text
        = find_terms_in_text env cls self text
        /\ attach_translations_to_text env cls' self' text template
           = attach_translations_to_text env cls self text template)
    /\ (forall x w,
           build_search_indexes env cls self = (Raise x, w) ->
           find_terms_in_text env cls self text = (Raise x, w)
           /\ attach_translations_to_text env cls self text template
              = (Raise x, w)).
Proof.
  intros env cls self text template Hb.
  assert (E : _ensure_indexes env cls self = build_search_indexes env cls self)
    by (unfold _ensure_indexes; now rewrite Hb).
  split.
  - intros cls' self' H. rewrite H in E.
    destruct (ensure_ok_built _ _ _ _ _ E) as [_ E'].
    rewrite (find_unfold _ _ _ _ _ _ E), (find_unfold _ _ _ _ _ _ E').
    rewrite (attach_unfold _ _ _ _ _ _ _ E), (attach_unfold _ _ _ _ _ _ _ E').
    split; reflexivity.
  - intros x w H. rewrite H in E.
    split; [now apply find_raise | now apply attach_raise].
Qed.

Lemma X4_explicit_build_is_optional_witness :
  exists cls' self',
    build_search_indexes (env_with (Some run_lemmatizer)) NLTKManager.fresh
                         (loaded run_sheet) = (Ok tt, (cls', self'))
    /\ find_terms_in_text (env_with (Some run_lemmatizer)) cls' self'
                          (lit "run") 
       = find_terms_in_text (env_with (Some run_lemmatizer))
                            NLTKManager.fresh (loaded run_sheet) (lit "run").
Proof.
  eexists _, _. split; [vm_compute; reflexivity|].
  apply (proj1 (X4_explicit_build_is_optional
                  (env_with (Some run_lemmatizer)) NLTKManager.fresh
                  (loaded run_sheet) (lit "run") default_template eq_refl)).
  vm_compute. reflexivity.
Defined.

(** X5: building, matching and rewriting never touch the dictionary:
    whether they return or raise, the engine they leave holds the
    dictionary it held, and [get_term_count] answers as before. *)
Theorem X5_dictionary_is_read_only :
  forall (env : Env) (cls : NLTKManager.t) (self : TranslationEngine)
         (text template : str),
    translation_dict (snd (snd (build_search_indexes env cls self)))
    = translation_dict self
    /\ translation_dict (snd (snd (find_terms_in_text env cls self text)))
       = translation_dict self
    /\ translation_dict
         (snd (snd (attach_translations_to_text env cls self text template)))
       = translation_dict self
    /\ get_term_count (snd (snd (find_terms_in_text env cls self text)))
       = get_term_count self
    /\ get_term_count
         (snd (snd (attach_translations_to_text env cls self text template)))
       = get_term_count self.
Proof.
  intros env cls self text template.
  pose proof (ensure_dict env cls self) as He.
  assert (Hf : translation_dict
                 (snd (snd (find_terms_in_text env cls self text)))
               = translation_dict self).
  { destruct (_ensure_indexes env cls self) as [[[]|x] [cls' self']] eqn:E.
    - now rewrite (find_unfold _ _ _ _ _ _ E).
    - now rewrite (find_raise _ _ _ _ _ _ E). }
  assert (Ha : translation_dict
                 (snd (snd (attach_translations_to_text env cls self
                                                        text template)))
               = translation_dict self).
  { destruct (_ensure_indexes env cls self) as [[[]|x] [cls' self']] eqn:E.
    - rewrite (attach_unfold _ _ _ _ _ _ _ E).
      now destruct (collect_replacements _ _ _ _).
    - now rewrite (attach_raise _ _ _ _ _ _ _ E). }
  split; [apply build_dict|]. split; [exact Hf|]. split; [exact Ha|].
  unfold get_term_count. now rewrite Hf, Ha.
Qed.

(** X6: an engine whose dictionary is empty needs neither a lemmatizer
    nor a valid template: on a stale index [find_terms_in_text] returns
    the empty mapping and [attach_translations_to_text] returns the text
    as it is, for every text, every template and every state of the
    WordNet packages. *)
Theorem X6_empty_dictionary_matches_nothing :
  forall (env : Env) (cls : NLTKManager.t) (self : TranslationEngine)
         (text template : str),
    translation_dict self = [] ->
    _indexes_built self = false ->
    fst (find_terms_in_text env cls self text) = Ok []
    /\ fst (attach_translations_to_text env cls self text template) = Ok text
    /\ fst (snd (find_terms_in_text env cls self text)) = cls.
Proof.
  intros env cls self text template Hd Hb.
  assert (E : _ensure_indexes env cls self
              = (Ok tt, (cls, {| translation_dict := translation_dict self;
                                 _regex := None; _lower_to_original := [];
                                 _lemma_map := [];
                                 _indexes_built := true |}))).
  { unfold _ensure_indexes, build_search_indexes. now rewrite Hb, Hd. }
  rewrite (find_unfold _ _ _ _ _ _ E), (attach_unfold _ _ _ _ _ _ _ E).
  unfold matches_of. simpl _regex.
  destruct text; repeat split; reflexivity.
Qed.

Lemma X6_empty_dictionary_matches_nothing_witness :
  fst (find_terms_in_text (env_with None) NLTKManager.fresh
                          (loaded (Sheet blank_sheet)) (lit "an orc"))
  = Ok []
  /\ fst (attach_translations_to_text (env_with None) NLTKManager.fresh
            (loaded (Sheet blank_sheet)) (lit "an orc") (lit "{oops"))
     = Ok (lit "an orc").
Proof.
  destruct (X6_empty_dictionary_matches_nothing
              (env_with None) NLTKManager.fresh (loaded (Sheet blank_sheet))
              (lit "an orc") (lit "{oops") eq_refl eq_refl) as (Hf & Ha & _).
  split; [exact Hf | exact Ha].
Defined.

(** ** The template *)





Lemma slice_skipn (text : str) (a b : nat) :
  a <= b -> slice text a b ++ skipn b text = skipn a text.
Proof.
  intros H. unfold slice.
  replace (skipn b text) with (skipn (b - a) (skipn a text)).
  - apply firstn_skipn.
  - rewrite skipn_skipn. f_equal. lia.
Qed.

(** Replacing spans by themselves changes nothing. *)
Lemma rewrite_spec_same (text : str) (replacements : list (nat * nat * str)) :
  forall cursor,
    chain cursor (length text) (map fst replacements) ->
    (forall s e r, In (s, e, r) replacements -> r = slice text s e) ->
    rewrite_spec text cursor replacements = skipn cursor text.
Proof.
  induction replacements as [|[[s e] r] rest IH]; intros c; simpl.
  - reflexivity.
  - intros (H1 & H2 & H3) Hr.
    rewrite (IH e H3) by (intros; apply Hr; now right).
    rewrite (Hr s e r) by now left.
    rewrite slice_skipn by exact H2. now apply slice_skipn.
Qed.

(** X8: the template that is the original alone gives the text back: for
    a dictionary just loaded, with a lemmatizer at hand,
    [attach_translations_to_text] with the template [{original}] returns
    every text unchanged, whatever it matches. *)
Theorem X8_original_alone_gives_the_text_back :
  forall (file : excel_file) (self0 self : TranslationEngine) (n : nat)
         (env : Env) (cls : NLTKManager.t) (lem : Lemmatizer) (text : str),
    load_translation_table file self0 = (Ok n, self) ->
    lemmatizer_in_use env cls = Some lem ->
    fst (attach_translations_to_text env cls self text (lit "{original}"))
    = Ok text.
Proof.
  intros file self0 self n env cls lem text Hload Hl.
  destruct (load_returns _ _ _ _ Hload) as (df & _ & _ & Hs & _).
  assert (Hb : _indexes_built self = false) by now subst self.
  assert (Hfmt : forall tr o, str_format (lit "{original}") tr o = Some o).
  { intros tr o. unfold str_format. simpl. now rewrite app_nil_r. }
  destruct (attach_spec env cls lem self text (lit "{original}") Hl Hb)
    as (out & cls' & reps & Ha & _ & Hc & Hr & _ & Ho & _).
  { intros tr o. rewrite Hfmt. discriminate. }
  rewrite Ha. simpl. f_equal. rewrite Ho.
  rewrite rewrite_spec_same; [reflexivity | exact Hc |].
  intros s e r Hin. destruct (Hr s e r Hin) as (key & tr & _ & _ & F).
  rewrite Hfmt in F. now injection F.
Qed.

Lemma X8_original_alone_gives_the_text_back_witness :
  fst (attach_translations_to_text (env_with (Some (table_lemmatizer [])))
         NLTKManager.fresh (loaded fire_sheet) (lit "A Fire Ball, then fire")
         (lit "{original}"))
  = Ok (lit "A Fire Ball, then fire").
Proof.
  apply (X8_original_alone_gives_the_text_back
           fire_sheet new_engine (loaded fire_sheet) 2
           (env_with (Some (table_lemmatizer []))) NLTKManager.fresh
           (table_lemmatizer []) (lit "A Fire Ball, then fire")
           eq_refl eq_refl).
Defined.

(** ** What is reported occurs in the text *)

Lemma chain_In (l : list (nat * nat)) :
  forall lo hi s e, chain lo hi l -> In (s, e) l -> lo <= s /\ s <= e /\ e <= hi.
Proof.
  induction l as [|[s' e'] r IH]; intros lo hi s e; simpl; [tauto|].
  intros (H1 & H2 & H3) [[= <- <-]|Hin].
  - apply chain_bounds in H3. lia.
  - destruct (IH _ _ _ _ H3 Hin) as (A & B & C). lia.
Qed.






(** ** What the text holds is reported *)






(** ** Letter case of the text *)















(** ** The chunks of the pattern *)









(** ** The class state of [NLTKManager] *)



(** ** The order of the dictionary *)







(** ** Exporting what was found *)

















(** ** The templates the attacher tab offers *)

Lemma matched_le_expanded (text : str) (replacements : list (nat * nat * str)) :
  (forall s e r, In (s, e, r) replacements -> e - s <= length r) ->
  matched_length replacements <= expanded_length replacements.
Proof.
  unfold matched_length, expanded_length.
  induction replacements as [|[[s e] r] rest IH]; intros H; simpl; [lia|].
  specialize (H s e r (or_introl eq_refl)) as H1.
  assert (H2 : forall s e r, In (s, e, r) rest -> e - s <= length r)
    by (intros; apply H; now right).
  specialize (IH H2). lia.
Qed.

Lemma slice_length (text : str) (s e : nat) :
  length (slice text s e) <= e - s.
Proof.
  unfold slice. rewrite length_firstn. lia.
Qed.

Lemma slice_length_in (text : str) (s e : nat) :
  e <= length text -> length (slice text s e) = e - s.
Proof.
  intros H. unfold slice. rewrite length_firstn, length_skipn. lia.
Qed.

(** X17: the attacher tab can only hand the rewriter one of its four
    templates, and each of them is accepted by [str.format] and keeps both
    the matched text and the translation, adding at least one character.
    Hence, for a dictionary just loaded and with a lemmatizer at hand, the
    rewrite asked for from the tab never fails on its template and never
    returns a text shorter than the input. *)
Theorem X17_offered_templates_always_format :
  forall current_display : str,
    In (_get_selected_template current_display) (map fst FORMAT_TEMPLATES)
    /\ (forall translation original,
           exists replacement,
             str_format (_get_selected_template current_display)
                        translation original = Some replacement
             /\ length translation + length original < length replacement)
    /\ forall (file : excel_file) (self0 self : TranslationEngine) (n : nat)
              (env : Env) (cls : NLTKManager.t) (lem : Lemmatizer)
              (text : str),
        load_translation_table file self0 = (Ok n, self) ->
        lemmatizer_in_use env cls = Some lem ->
        exists out w,
          attach_translations_to_text
            env cls self text (_get_selected_template current_display)
          = (Ok out, w)
          /\ length text <= length out.
Proof.
  intros d.
  assert (Hin : In (_get_selected_template d) (map fst FORMAT_TEMPLATES)).
  { unfold _get_selected_template.
    destruct (find _ FORMAT_TEMPLATES) as [entry|] eqn:F.
    - apply find_some in F as [F _]. now apply in_map.
    - simpl. auto. }
  assert (Hfmt : forall tr o,
             exists r, str_format (_get_selected_template d) tr o = Some r
                       /\ length tr + length o < length r).
  { intros tr o. simpl in Hin.
    destruct Hin as [<-|[<-|[<-|[<-|[]]]]]; eexists;
      (split; [unfold str_format; simpl; reflexivity|]);
      rewrite ?length_app; simpl; rewrite ?length_app; simpl; lia. }
  split; [exact Hin|]. split; [exact Hfmt|].
  intros file self0 self n env cls lem text Hload Hl.
  destruct (load_returns _ _ _ _ Hload) as (df & _ & _ & Hs & _).
  assert (Hb : _indexes_built self = false) by now subst self.
  destruct (attach_spec env cls lem self text (_get_selected_template d) Hl Hb)
    as (out & cls' & reps & Ha & _ & Hc & Hr & _ & _ & Hlen).
  { intros tr o. destruct (Hfmt tr o) as (r & -> & _). discriminate. }
  exists out, (cls', indexed env lem self). split; [exact Ha|].
  assert (Hle : matched_length reps <= expanded_length reps).
  { apply (matched_le_expanded text). intros s e r Hin'.
    destruct (Hr s e r Hin') as (key & tr & _ & _ & F).
    destruct (Hfmt tr (slice text s e)) as (r' & F' & Hlt).
    rewrite F in F'. injection F' as <-.
    assert (He : e <= length text).
    { apply (chain_In _ _ _ s e Hc). apply in_map_iff.
      now exists (s, e, r). }
    rewrite slice_length_in in Hlt by exact He. lia. }
  lia.
Qed.

Lemma X17_offered_templates_always_format_witness :
  exists out w,
    attach_translations_to_text
      (env_with (Some (table_lemmatizer []))) NLTKManager.fresh
      (loaded orc_sheet) (lit "an orc")
      (_get_selected_template (lit "原名(译名) (如: fire ball(火球术))"))
    = (Ok out, w)
    /\ length (lit "an orc") <= length out.
Proof.
  destruct (X17_offered_templates_always_format
              (lit "原名(译名) (如: fire ball(火球术))")) as (_ & _ & H).
  apply (H orc_sheet new_engine (loaded orc_sheet) 1
           (env_with (Some (table_lemmatizer []))) NLTKManager.fresh
           (table_lemmatizer []) (lit "an orc") eq_refl eq_refl).
Defined.
